(** * InteliVid: the clustering pipeline of [janus_clustering.py]

    A shallow embedding of the parts of [JanusClustering.cluster] and [main]
    that turn nearest-neighbour search results into a dense distance matrix,
    report the number of clusters, and regroup the per-frame labels into
    video segments.

    Conventions.
    - Milvus primary keys and HDBSCAN labels are 64-bit integers; they are
      only compared and stored, so they are embedded as [Z].
    - Distances and timestamps are binary64 floats: [PrimFloat.float];
      [np.inf] is [infinity].
    - A Python [dict] keeps its keys in insertion order and is iterated in
      that order: module [Dict] is an association list with in-place
      replacement of existing keys.  [ids2index] is only ever looked up, so
      it is a [gmap].
    - Python exceptions are the constructors of [exn]; code that can raise
      returns a [result]. *)

From Stdlib Require Import ZArith String.
From Stdlib Require Import Floats.PrimFloat Floats.SpecFloat Floats.FloatOps.
From stdpp Require Import gmap list sorting strings.

(** ** Exceptions *)

Inductive exn : Set :=
| KeyError
| IndexError
| ValueError.

Inductive result (A : Type) : Type :=
| Ok (a : A)
| Raise (e : exn).
Arguments Ok {A} a.
Arguments Raise {A} e.

#[global] Instance result_ret : MRet result := fun A a => Ok a.
#[global] Instance result_bind : MBind result := fun A B f m =>
  match m with
  | Ok a => f a
  | Raise e => Raise e
  end.

(** [d[k]] on a subscriptable that may lack [k]. *)
Definition subscript {A} (e : exn) (o : option A) : result A :=
  match o with
  | Some a => Ok a
  | None => Raise e
  end.

(** A [for] loop whose body may raise. *)
Fixpoint foldM {A S : Type} (body : S → A → result S) (l : list A) (s : S)
  : result S :=
  match l with
  | [] => Ok s
  | x :: l' => s' ← body s x; foldM body l' s'
  end.

(** [enumerate(l)]. *)
Definition enumerate {A} (l : list A) : list (nat * A) := imap pair l.

(** ** Insertion-ordered dictionaries *)

Module Dict.
Section dict.
Context {V : Type}.

Definition t : Type := list (Z * V).

Definition empty : t := [].

Fixpoint get (k : Z) (d : t) : option V :=
  match d with
  | [] => None
  | (k', v) :: d' => if decide (k = k') then Some v else get k d'
  end.

(** [d[k] = v]: an existing key keeps its place, a new one goes last. *)
Fixpoint set (k : Z) (v : V) (d : t) : t :=
  match d with
  | [] => [(k, v)]
  | (k', v') :: d' =>
      if decide (k = k') then (k, v) :: d' else (k', v') :: set k v d'
  end.

(** [k in d]. *)
Definition mem (k : Z) (d : t) : bool := bool_decide (is_Some (get k d)).

Definition keys (d : t) : list Z := d.*1.

Definition wf (d : t) : Prop := NoDup (keys d).
End dict.
Arguments t V : clear implicits.
End Dict.

(** ** Ingestion of the query rounds (lines 132-166) *)

(** One entity returned by [query_iterator]. *)
Record entity : Type := Entity {
  entity_id : Z;
  entity_embedding : list float
}.

(** One hit of [collection.search]. *)
Record hit : Type := Hit {
  hit_id : Z;
  hit_distance : float
}.

(** One turn of the [while True] loop: the batch handed out by
    [iterator.next()] and what [collection.search] answered for its
    vectors (one list of hits per query vector). *)
Record round : Type := Round {
  batch : list entity;
  results : list (list hit)
}.

Record ingested : Type := Ingested {
  ids : list Z;
  dist : Dict.t (list (Z * float));
  embeddings : list (list float)
}.

(** [dist[batch_id].append(x)]; line 161 has just bound the key, so the
    [None] branch is never taken. *)
Definition dist_append (batch_id : Z) (x : Z * float)
    (d : Dict.t (list (Z * float))) : Dict.t (list (Z * float)) :=
  match Dict.get batch_id d with
  | Some l => Dict.set batch_id (l ++ [x]) d
  | None => d
  end.

(** Lines 161-163: [dist[batch_id] = []], then one append per hit. *)
Definition store_hits (batch_id : Z) (hits : list hit)
    (d : Dict.t (list (Z * float))) : Dict.t (list (Z * float)) :=
  fold_left (λ d r, dist_append batch_id (hit_id r, hit_distance r) d)
            hits (Dict.set batch_id [] d).

(** Lines 160-163; [results[i]] raises [IndexError] past the end. *)
Definition store_batch (batch_ids : list Z) (res : list (list hit))
    (d : Dict.t (list (Z * float))) : result (Dict.t (list (Z * float))) :=
  foldM (λ d '(i, batch_id),
           hits ← subscript IndexError (res !! i);
           Ok (store_hits batch_id hits d))
        (enumerate batch_ids) d.

(** Lines 140-166.  The iterator is the list of the batches it will hand
    out; once exhausted it returns the empty batch. *)
Fixpoint ingest_loop (rounds : list round) (st : ingested) : result ingested :=
  match rounds with
  | [] => Ok st
  | r :: rounds' =>
      if decide (length (batch r) = 0) then Ok st
      else
        let batch_ids := entity_id <$> batch r in
        let query_vectors := entity_embedding <$> batch r in
        d ← store_batch batch_ids (results r) (dist st);
        ingest_loop rounds'
          {| ids := ids st ++ batch_ids;
             dist := d;
             embeddings := embeddings st ++ query_vectors |}
  end.

Definition ingest (rounds : list round) : result ingested :=
  ingest_loop rounds {| ids := []; dist := Dict.empty; embeddings := [] |}.

(** ** The distance matrix (lines 168-175) *)

Abbreviation matrix := (list (list float)).

(** [np.full((rows, cols), v)]. *)
Definition full (rows cols : nat) (v : float) : matrix :=
  replicate rows (replicate cols v).

(** [m[r][c]]. *)
Definition mget (m : matrix) (r c : nat) : option float :=
  row ← m !! r; row !! c.

(** [m[r][c] = v]; numpy raises [IndexError] out of bounds. *)
Definition mset (r c : nat) (v : float) (m : matrix) : result matrix :=
  match m !! r with
  | None => Raise IndexError
  | Some row =>
      if decide (c < length row) then Ok (<[r := <[c := v]> row]> m)
      else Raise IndexError
  end.

(** [{id: idx for idx, id in enumerate(ids)}]. *)
Definition make_ids2index (ids : list Z) : gmap Z nat :=
  fold_left (λ acc '(idx, id), <[id := idx]> acc) (enumerate ids) ∅.

(** Line 175. *)
Definition write_edge (ids2index : gmap Z nat) (id : Z) (m : matrix)
    (res : Z * float) : result matrix :=
  r ← subscript KeyError (ids2index !! id);
  c ← subscript KeyError (ids2index !! res.1);
  mset r c res.2 m.

(** Lines 174-175: the body of [for id in dist]. *)
Definition fill_body (ids2index : gmap Z nat)
    (dist : Dict.t (list (Z * float))) (m : matrix) (id : Z)
  : result matrix :=
  l ← subscript KeyError (Dict.get id dist);
  foldM (write_edge ids2index id) l m.

(** Lines 173-175. *)
Definition fill_matrix (ids2index : gmap Z nat)
    (dist : Dict.t (list (Z * float))) (m : matrix) : result matrix :=
  foldM (fill_body ids2index dist) (Dict.keys dist) m.

(** Lines 170-175. *)
Definition build_matrix (ids : list Z) (dist : Dict.t (list (Z * float)))
  : result matrix :=
  fill_matrix (make_ids2index ids) dist
              (full (length ids) (length ids) infinity).

(** ** The reported cluster count (line 186) *)

Definition noise : Z := (-1)%Z.

(** [len(set(labels)) - 1]. *)
Definition cluster_count (labels : list Z) : Z :=
  (Z.of_nat (size (list_to_set labels : gset Z)) - 1)%Z.

(** What the message announces: the distinct labels other than noise. *)
Definition distinct_clusters (labels : list Z) : Z :=
  Z.of_nat (size (list_to_set (filter (λ l, l ≠ noise) labels) : gset Z)).

(** ** Segments (lines 242-259) *)

(** Lines 245-247; line 246 has bound the label when line 247 runs, so
    the [None] branch is never taken. *)
Definition group_step (cluster_groups : Dict.t (list nat)) (p : nat * Z)
  : Dict.t (list nat) :=
  let '(i, label) := p in
  let g := if Dict.mem label cluster_groups then cluster_groups
           else Dict.set label [] cluster_groups in
  match Dict.get label g with
  | Some l => Dict.set label (l ++ [i]) g
  | None => g
  end.

(** Lines 243-247. *)
Definition group_frames (labels : list Z) : Dict.t (list nat) :=
  fold_left group_step (enumerate labels) Dict.empty.

(** What one turn of the loop of line 250 hands to the video writer. *)
Record Segment : Type := MkSegment {
  seg_label : Z;
  start_time : float;
  end_time : float;
  frame_indices : list nat
}.

(** Lines 255-256: [frame_indices[0]], [frame_indices[-1]] and the two
    subscripts of [timestamps] raise [IndexError] when out of range. *)
Definition make_segment (timestamps : list float) (label : Z)
    (frame_indices : list nat) : result Segment :=
  first ← subscript IndexError (head frame_indices);
  start_time ← subscript IndexError (timestamps !! first);
  final ← subscript IndexError (last frame_indices);
  end_time ← subscript IndexError (timestamps !! final);
  Ok (MkSegment label start_time end_time frame_indices).

(** Lines 250-271, with the segments collected in the order they are
    written. *)
Fixpoint emit_segments (timestamps : list float)
    (items : list (Z * list nat)) : result (list Segment) :=
  match items with
  | [] => Ok []
  | (label, frame_indices) :: items' =>
      if decide (label = noise) then emit_segments timestamps items'
      else
        s ← make_segment timestamps label frame_indices;
        rest ← emit_segments timestamps items';
        Ok (s :: rest)
  end.

Definition segments (labels : list Z) (timestamps : list float)
  : result (list Segment) :=
  emit_segments timestamps (group_frames labels).

(** ** The pipeline: [cluster] (lines 119-187) and [main] (lines 232-271)

    The calls that leave the repository are parameters of the section, and
    each of them may raise: HDBSCAN's [fit_predict] (line 184), [np.array]
    (line 187), [visualize] (line 233; its body, lines 189-213, is a chain
    of calls into UMAP, pandas and plotly), the opening of the video
    (lines 237-240) and the writing of one segment file (lines 258-271). *)

(** What [cluster] leaves behind: the matrix it hands to HDBSCAN, the
    labels and the array of embeddings it returns, and the count it
    prints. *)
Record clustered (ndarray : Type) : Type := Clustered {
  dist_matrix : matrix;
  labels_of : list Z;
  reported : Z;
  embeddings_of : ndarray
}.
Arguments Clustered {ndarray} _ _ _ _.
Arguments dist_matrix {ndarray} _.
Arguments labels_of {ndarray} _.
Arguments reported {ndarray} _.
Arguments embeddings_of {ndarray} _.

Section Pipeline.
Context {ndarray : Type}.
Variable fit_predict : nat → nat → matrix → result (list Z).
Variable np_array : list (list float) → result ndarray.
Variable visualize : list Z → ndarray → result unit.
Variable video_capture : result unit.
Variable write_video : Segment → result unit.

Definition cluster (min_samples min_cluster_size : nat)
    (rounds : list round) : result (clustered ndarray) :=
  st ← ingest rounds;
  m ← build_matrix (ids st) (dist st);
  labels ← fit_predict min_samples min_cluster_size m;
  arr ← np_array (embeddings st);
  Ok (Clustered m labels (cluster_count labels) arr).

(** Lines 250-271: the file of a segment is written as soon as its record
    is made, before the next group is looked at. *)
Fixpoint write_segments (timestamps : list float)
    (items : list (Z * list nat)) : result (list Segment) :=
  match items with
  | [] => Ok []
  | (label, frame_indices) :: items' =>
      if decide (label = noise) then write_segments timestamps items'
      else
        s ← make_segment timestamps label frame_indices;
        _ ← write_video s;
        rest ← write_segments timestamps items';
        Ok (s :: rest)
  end.

(** [main] from line 232 on, the frames being stored already. *)
Definition main (rounds : list round) (timestamps : list float)
  : result (clustered ndarray * list Segment) :=
  c ← cluster 3 24 rounds;
  _ ← visualize (labels_of c) (embeddings_of c);
  _ ← video_capture;
  segs ← write_segments timestamps (group_frames (labels_of c));
  Ok (c, segs).
End Pipeline.

(** ** Notions used to state the properties *)

(** The distance carried by the last pair of [l] whose target is [b]. *)
Definition last_dist (b : Z) (l : list (Z * float)) : option float :=
  snd <$> last (filter (λ h, h.1 = b) l).

(** The value line 175 leaves for the ordered pair of ids [(a, b)]. *)
Definition expected_entry (dist : Dict.t (list (Z * float))) (a b : Z)
  : float :=
  match Dict.get a dist with
  | Some l => default infinity (last_dist b l)
  | None => infinity
  end.

Definition square (n : nat) (m : matrix) : Prop :=
  length m = n ∧ Forall (λ row, length row = n) m.

(** Every id an edge mentions belongs to the population. *)
Definition closed (ids : list Z) (dist : Dict.t (list (Z * float))) : Prop :=
  ∀ a l b d, Dict.get a dist = Some l → (b, d) ∈ l → a ∈ ids ∧ b ∈ ids.

(** The edge [(a, b, d)] is listed: [(b, d)] occurs in [dist[a]]. *)
Definition observed (dist : Dict.t (list (Z * float))) (a b : Z) (d : float)
  : Prop :=
  ∃ l, Dict.get a dist = Some l ∧ (b, d) ∈ l.

(** It is listed and no later pair of [dist[a]] has target [b]. *)
Definition observed_last (dist : Dict.t (list (Z * float))) (a b : Z)
    (d : float) : Prop :=
  ∃ l, Dict.get a dist = Some l ∧ last_dist b l = Some d.

Definition no_edge (dist : Dict.t (list (Z * float))) (a b : Z) : Prop :=
  ∀ d, ¬ observed dist a b d.

(** The three properties of the matrix, for a given reading [edge] of
    "the edge (a, b, d) was observed": observed edges are read back,
    pairs without an edge hold the sentinel, and a one-way edge leaves
    the mirrored entry at the sentinel. *)
Definition matrix_entries (edge : Z → Z → float → Prop) (ids : list Z)
    (dist : Dict.t (list (Z * float))) (m : matrix) : Prop :=
  (∀ a b d i j, ids !! i = Some a → ids !! j = Some b →
     edge a b d → mget m i j = Some d) ∧
  (∀ a b i j, ids !! i = Some a → ids !! j = Some b →
     no_edge dist a b → mget m i j = Some infinity) ∧
  (∀ a b d i j, ids !! i = Some a → ids !! j = Some b →
     edge a b d → no_edge dist b a →
     mget m i j = Some d ∧ mget m j i = Some infinity).

(** The positions of [labels] that carry label [k], in increasing order. *)
Definition indices_of (k : Z) (labels : list Z) : list nat :=
  filter (λ i, labels !! i = Some k) (seq 0 (length labels)).

(** [x <= y] on floats. *)
Definition tle (x y : float) : Prop := (x <=? y)%float = true.

(** A later timestamp is never smaller than an earlier one.  Taking
    [i = j] the timestamps compare with themselves: none is a NaN. *)
Definition nondecreasing (timestamps : list float) : Prop :=
  ∀ i j x y, i ≤ j →
    timestamps !! i = Some x → timestamps !! j = Some y → tle x y.

(** The group [p] starts at an earlier position than the group [q]. *)
Definition first_before (p q : Z * list nat) : Prop :=
  ∃ i j, head p.2 = Some i ∧ head q.2 = Some j ∧ i < j.

(** What the loop of lines 244-247 has built once it has read [labels]. *)
Definition grouped (labels : list Z) (g : Dict.t (list nat)) : Prop :=
  Dict.wf g ∧
  (∀ k, k ∈ Dict.keys g ↔ k ∈ labels) ∧
  (∀ k idxs, Dict.get k g = Some idxs → idxs = indices_of k labels) ∧
  StronglySorted first_before g.

(** The segment [s] is the one written for the group [p]. *)
Definition emitted_from (timestamps : list float) (p : Z * list nat)
    (s : Segment) : Prop :=
  seg_label s = p.1 ∧ frame_indices s = p.2 ∧
  ∃ i j, head p.2 = Some i ∧ last p.2 = Some j ∧
         timestamps !! i = Some (start_time s) ∧
         timestamps !! j = Some (end_time s).

(** The segment [s] starts at an earlier position than [t]. *)
Definition starts_before (s t : Segment) : Prop :=
  ∃ i j, head (frame_indices s) = Some i ∧
         head (frame_indices t) = Some j ∧ i < j.

(** The number of maximal contiguous runs of label [k], [prev] being the
    label just before the list. *)
Fixpoint runs_from (prev : option Z) (k : Z) (labels : list Z) : nat :=
  match labels with
  | [] => 0
  | l :: rest =>
      (if decide (l = k ∧ prev ≠ Some k) then 1 else 0)
      + runs_from (Some l) k rest
  end.

Definition run_count (k : Z) (labels : list Z) : nat :=
  runs_from None k labels.

(** The specification's reading of the reconstruction: as many segments
    carry a non-noise label as the label has maximal contiguous runs. *)
Definition one_segment_per_run (labels : list Z) (timestamps : list float)
  : Prop :=
  ∀ segs, segments labels timestamps = Ok segs →
    ∀ k, k ≠ noise → 2 ≤ run_count k labels →
      length (filter (λ s, seg_label s = k) segs) = run_count k labels.

(** A label in two runs around a noise frame. *)
Definition split_labels : list Z := [0; -1; 0]%Z.

Definition split_timestamps : list float := [0; 1; 2]%float.

(** A boolean test for [nondecreasing]. *)
Fixpoint nondecreasingb (timestamps : list float) : bool :=
  match timestamps with
  | [] => true
  | x :: rest =>
      (x <=? x)%float && forallb (PrimFloat.leb x) rest && nondecreasingb rest
  end.

(** Two clusters of 24 frames each and no noise frame. *)
Definition two_clusters : list Z := replicate 24 0%Z ++ replicate 24 1%Z.

(** The rounds the loop of line 140 goes through: those before the first
    empty batch. *)
Fixpoint active (rounds : list round) : list round :=
  match rounds with
  | [] => []
  | r :: rounds' =>
      if decide (length (batch r) = 0) then [] else r :: active rounds'
  end.

(** The search answered every query vector of the round. *)
Definition answered (r : round) : Prop :=
  length (batch r) ≤ length (results r).

(** The ids of the items handed out, in order, once per appearance. *)
Definition population (rounds : list round) : list Z :=
  r ← active rounds; entity_id <$> batch r.

(** The queried ids of the rounds with the hits returned for each, in
    query order. *)
Definition queries (rounds : list round) : list (Z * list hit) :=
  r ← active rounds; zip (entity_id <$> batch r) (results r).

(** The pairs line 163 stores for a list of hits. *)
Definition tuples (hits : list hit) : list (Z * float) :=
  (λ r, (hit_id r, hit_distance r)) <$> hits.

(** What lines 161-163 do to [dist] for one query. *)
Definition store_query (d : Dict.t (list (Z * float)))
    (q : Z * list hit) : Dict.t (list (Z * float)) :=
  Dict.set q.1 (tuples q.2) d.

(** The hits of the last query made for [id]. *)
Definition last_answer (id : Z) (qs : list (Z * list hit))
  : option (list hit) :=
  snd <$> last (filter (λ q, q.1 = id) qs).

(** The same id is queried in two different rounds. *)
Definition repeated_id (rounds : list round) : Prop :=
  ∃ a b ra rb id, a ≠ b ∧
    active rounds !! a = Some ra ∧ active rounds !! b = Some rb ∧
    id ∈ entity_id <$> batch ra ∧ id ∈ entity_id <$> batch rb.

(** The specification's reading of ingestion failures: a repeated id or
    an empty population makes ingestion raise. *)
Definition ingest_rejects (rounds : list round) : Prop :=
  repeated_id rounds ∨ population rounds = [] →
  ∃ e, ingest rounds = Raise e.

(** Entity 7 handed out by two successive batches. *)
Definition repeated_rounds : list round :=
  [ Round [Entity 7 []] [[Hit 8 0.5]];
    Round [Entity 7 []] [[Hit 9 0.25]] ].

(** Modelled from the spec: HDBSCAN is not part of the repository; its
    contract (section 4.3) is that [fit_predict] returns a label array of
    length N on an N×N matrix.  This is the contract at the matrix [m] for
    the parameters [main] passes. *)
Definition one_label_per_row
    (fit_predict : nat → nat → matrix → result (list Z)) (m : matrix)
  : Prop :=
  ∃ labels, fit_predict 3 24 m = Ok labels ∧ length labels = length m.

(** A clustering primitive that puts every item in cluster 0. *)
Definition one_cluster (min_samples min_cluster_size : nat) (m : matrix)
  : result (list Z) :=
  Ok (replicate (length m) 0%Z).

(** A population of two ids whose first member lists the second twice. *)
Definition dup_ids : list Z := [1; 2]%Z.

Definition dup_dist : Dict.t (list (Z * float)) :=
  [ (1%Z, [(2%Z, 0.5%float); (2%Z, 0.75%float)]);
    (2%Z, []) ].

(** ** The embedding dimension ([__init__], lines 32-37) *)

(** [needle in s] on Python strings. *)
Definition contains (needle s : string) : bool :=
  bool_decide (is_Some (String.index 0 needle s)).

(** [needle] occurs in [s]. *)
Definition occurs (needle s : string) : Prop :=
  ∃ pre post, s = pre +:+ needle +:+ post.

Definition embedding_dim (model_path : string) : result nat :=
  if contains "Janus-Pro-1B" model_path then Ok 2048
  else if contains "Janus-Pro-7B" model_path then Ok 4096
  else Raise ValueError.

(** ** Frame extraction ([extract_frames], lines 59-86) *)

Inductive arith_exn : Set :=
| ZeroDivisionError.

Inductive outcome (E A : Type) : Type :=
| Return (a : A)
| Throw (e : E).
Arguments Return {E A} a.
Arguments Throw {E A} e.

(** [float(n)] for a Python [int]: the nearest binary64 value (Python
    raises [OverflowError] from 2^1024 on, far beyond a frame count). *)
Definition float_of_nat (n : nat) : float :=
  SF2Prim (binary_normalize prec emax (Z.of_nat n) 0 false).

Section Extract.
Context {frame : Type}.

(** [CAP_PROP_FRAME_COUNT] as [int], [CAP_PROP_FPS], and the stride. *)
Variables (total_frames : Z) (fps : float) (frame_interval : Z).

(** Lines 75-81 for the frame numbered [frame_count]: the timestamp
    appended, if the frame is kept.  [%] and [/] raise on a zero divisor;
    the progress message of line 81 is computed for every hundredth frame
    that is kept. *)
Definition keep_frame (frame_count : nat)
  : outcome arith_exn (option float) :=
  if decide (frame_interval = 0%Z) then Throw ZeroDivisionError
  else if decide ((Z.of_nat frame_count `mod` frame_interval)%Z = 0%Z) then
    if PrimFloat.eqb fps 0 then Throw ZeroDivisionError
    else
      let timestamp := (float_of_nat frame_count / fps)%float in
      if decide (frame_count `mod` 100 = 0) then
        if decide (total_frames = 0%Z) then Throw ZeroDivisionError
        else Return (Some timestamp)
      else Return (Some timestamp)
  else Return None.

(** Lines 70-82; [video] lists the frames [cap.read()] delivers before it
    fails. *)
Fixpoint extract_loop (video : list frame) (frame_count : nat)
    (frame_list : list frame) (timestamps : list float)
  : outcome arith_exn (list frame * list float) :=
  match video with
  | [] => Return (frame_list, timestamps)
  | frame :: video' =>
      match keep_frame frame_count with
      | Throw e => Throw e
      | Return None =>
          extract_loop video' (S frame_count) frame_list timestamps
      | Return (Some timestamp) =>
          extract_loop video' (S frame_count)
            (frame_list ++ [frame]) (timestamps ++ [timestamp])
      end
  end.

Definition extract_frames (video : list frame)
  : outcome arith_exn (list frame * list float) :=
  extract_loop video 0 [] [].

(** The numbered frames line 75 keeps. *)
Definition sampled (video : list frame) : list (nat * frame) :=
  filter (λ p, (Z.of_nat p.1 `mod` frame_interval)%Z = 0%Z)
         (enumerate video).
End Extract.

(** No division of [extract_frames] has a zero divisor. *)
Definition regular (total_frames : Z) (fps : float) (frame_interval : Z)
  : Prop :=
  frame_interval ≠ 0%Z ∧ PrimFloat.eqb fps 0 = false ∧ total_frames ≠ 0%Z.

(** The timestamp of the frame numbered [frame_count] (line 77). *)
Definition timestamp_of (fps : float) (frame_count : nat) : float :=
  (float_of_nat frame_count / fps)%float.

(** ** Writing a segment ([main], lines 264-268)

    The second capture of line 237 belongs to OpenCV: its state is an
    abstract [capture], and what [cap.set(CAP_PROP_POS_FRAMES, idx)] and
    [cap.read()] do to it are parameters. *)

Section Writer.
Context {frame capture : Type}.
Variable cap_set : capture → nat → capture.
Variable cap_read : capture → capture * option frame.

(** Lines 264-268: seek, read, and write the frame when the read
    succeeded.  Returns the capture and the frames handed to [out.write],
    in order. *)
Fixpoint write_frames (cap : capture) (frame_indices : list nat)
  : capture * list frame :=
  match frame_indices with
  | [] => (cap, [])
  | idx :: rest =>
      let '(cap1, ret_frame) := cap_read (cap_set cap idx) in
      let '(cap2, out) := write_frames cap1 rest in
      (cap2, match ret_frame with
             | Some frame => frame :: out
             | None => out
             end)
  end.
End Writer.

(** Seeking to a frame number and reading delivers that frame of [video],
    and fails past its end: what the code expects of OpenCV. *)
Definition exact_seek {frame capture : Type}
    (cap_set : capture → nat → capture)
    (cap_read : capture → capture * option frame)
    (video : list frame) : Prop :=
  ∀ cap idx, (cap_read (cap_set cap idx)).2 = video !! idx.

(** A capture that is a cursor into the frames of [video]. *)
Definition cursor_set (pos idx : nat) : nat := idx.

Definition cursor_read {frame : Type} (video : list frame) (pos : nat)
  : nat * option frame :=
  (S pos, video !! pos).

(** ** Notions used by the further properties *)

(** The entities handed out by the rounds the loop goes through. *)
Definition entities (rounds : list round) : list entity :=
  r ← active rounds; batch r.

(** The search returned fewer result lists than the round has queries. *)
Definition unanswered (r : round) : Prop :=
  length (results r) < length (batch r).

(** The segments written for [split_labels]. *)
Definition split_segments : list Segment := [MkSegment 0 0 2 [0; 2]].

(** Entity 7 handed out twice, its own id among its hits. *)
Definition shadow_ids : list Z := [7; 7]%Z.

Definition shadow_dist : Dict.t (list (Z * float)) :=
  [ (7%Z, [(7%Z, 0.5%float)]) ].

(** A round whose search result lacks the answer for its second query. *)
Definition short_rounds : list round :=
  [ Round [Entity 1 []; Entity 2 []] [[Hit 2 0.5]] ].

(** Two entities that list each other. *)
Definition pair_rounds : list round :=
  [ Round [Entity 1 []; Entity 2 []] [[Hit 2 0.5]; [Hit 1 0.5]] ].

(** Two labels whose frames interleave. *)
Definition interleaved_labels : list Z := [0; 1; 0]%Z.

(** The segments written for [interleaved_labels]. *)
Definition interleaved_segments : list Segment :=
  [MkSegment 0 0 2 [0; 2]; MkSegment 1 1 1 [1]].

(** The frame-index range of a segment as the specification has it: the
    positions from its first to its last frame index. *)
Definition in_index_range (s : Segment) (p : nat) : Prop :=
  ∃ i j, head (frame_indices s) = Some i ∧ last (frame_indices s) = Some j ∧
         i ≤ p ≤ j.

(** The specification's reading of the partition law: the frame-index
    ranges of two different segments share no position. *)
Definition index_ranges_disjoint (labels : list Z) (timestamps : list float)
  : Prop :=
  ∀ segs, segments labels timestamps = Ok segs →
    ∀ a b s t, a ≠ b → segs !! a = Some s → segs !! b = Some t →
      ∀ p, in_index_range s p → ¬ in_index_range t p.

(** The same edges held by two dicts filled in opposite orders. *)
Definition forward_dist : Dict.t (list (Z * float)) :=
  [ (1%Z, [(2%Z, 0.5%float)]); (2%Z, [(1%Z, 0.25%float)]) ].

Definition backward_dist : Dict.t (list (Z * float)) :=
  [ (2%Z, [(1%Z, 0.25%float)]); (1%Z, [(2%Z, 0.5%float)]) ].

(** [split_timestamps] followed by the timestamp of a frame that has no
    label. *)
Definition longer_timestamps : list float := [0; 1; 2; 3]%float.

(** Stand-ins for the library calls of [main] that return normally. *)
Definition array_of_lists (embeddings : list (list float))
  : result (list (list float)) :=
  Ok embeddings.

Definition silent_plot (labels : list Z) (arr : list (list float))
  : result unit :=
  Ok tt.

Definition silent_writer (s : Segment) : result unit := Ok tt.

(** ** Sanity checks on the scenario of the specification *)

Definition scenario_dist : Dict.t (list (Z * float)) :=
  [ (0%Z, [(1%Z, 0.125%float); (2%Z, 0.25%float)]);
    (1%Z, [(0%Z, 0.125%float)]);
    (2%Z, [(4%Z, 0.375%float)]);
    (3%Z, [(4%Z, 0.0625%float)]);
    (4%Z, [(3%Z, 0.0625%float)]) ].

Example scenario_matrix :
  build_matrix [0; 1; 2; 3; 4]%Z scenario_dist =
  Ok [ [infinity; 0.125; 0.25; infinity; infinity];
       [0.125; infinity; infinity; infinity; infinity];
       [infinity; infinity; infinity; infinity; 0.375];
       [infinity; infinity; infinity; infinity; 0.0625];
       [infinity; infinity; infinity; 0.0625; infinity] ]%float.
Proof. vm_compute. reflexivity. Qed.

Example scenario_segments :
  segments [0; 0; -1; 1; 1]%Z [0; 1; 2; 3; 4]%float =
  Ok [ MkSegment 0 0 1 [0; 1]; MkSegment 1 3 4 [3; 4] ].
Proof. vm_compute. reflexivity. Qed.

(** ** Auxiliary facts: the error monad and loops *)

Lemma bind_Ok_inv {A B} (f : A → result B) (m : result A) (b : B) :
  m ≫= f = Ok b → ∃ a, m = Ok a ∧ f a = Ok b.
Proof. destruct m as [a|e]; simpl; [eauto | discriminate]. Qed.

Lemma subscript_Ok_inv {A} (e : exn) (o : option A) (a : A) :
  subscript e o = Ok a → o = Some a.
Proof. destruct o; simpl; congruence. Qed.

Lemma enumerate_snoc {A} (l : list A) (x : A) :
  enumerate (l ++ [x]) = enumerate l ++ [(length l, x)].
Proof.
  unfold enumerate. rewrite imap_app. simpl. by rewrite Nat.add_0_r.
Qed.

Ltac inv_bind H :=
  let a := fresh "a" in
  let Ha := fresh "Ha" in
  apply bind_Ok_inv in H as (a & Ha & H).

(** ** Auxiliary facts: dictionaries *)

Module DictFacts.
Section facts.
Context {V : Type}.
Implicit Types (d : Dict.t V) (k : Z) (v : V).

Lemma get_set_eq k v d : Dict.get k (Dict.set k v d) = Some v.
Proof.
  induction d as [|[k' v'] d IH]; simpl.
  - by rewrite decide_True.
  - destruct (decide (k = k')) as [->|Hne]; simpl.
    + by rewrite decide_True.
    + by rewrite decide_False.
Qed.

Lemma get_set_ne k k' v d :
  k ≠ k' → Dict.get k' (Dict.set k v d) = Dict.get k' d.
Proof.
  intros Hne. induction d as [|[k0 v0] d IH]; simpl.
  - by rewrite decide_False.
  - destruct (decide (k = k0)) as [->|Hk]; simpl.
    + by rewrite !decide_False.
    + destruct (decide (k' = k0)); [done | apply IH].
Qed.

Lemma get_None k d : Dict.get k d = None ↔ k ∉ Dict.keys d.
Proof.
  unfold Dict.keys. induction d as [|[k' v'] d IH]; simpl.
  - split; [intros _; apply not_elem_of_nil | done].
  - rewrite not_elem_of_cons. destruct (decide (k = k')) as [->|Hne].
    + split; [done | intros [? _]; done].
    + rewrite IH. tauto.
Qed.

Lemma get_is_Some k d : is_Some (Dict.get k d) ↔ k ∈ Dict.keys d.
Proof.
  destruct (Dict.get k d) as [v|] eqn:E.
  - split; [intros _ | eauto].
    destruct (decide (k ∈ Dict.keys d)) as [|Hn]; [done|].
    apply get_None in Hn. congruence.
  - split; [intros [? ?]; done|]. intros Hin.
    apply get_None in E. done.
Qed.

Lemma elem_of_get k v d : Dict.wf d → (k, v) ∈ d → Dict.get k d = Some v.
Proof.
  unfold Dict.wf, Dict.keys.
  induction d as [|[k' v'] d IH]; simpl; intros Hnd Hin.
  - by apply elem_of_nil in Hin.
  - apply NoDup_cons in Hnd as [Hk' Hnd].
    apply elem_of_cons in Hin as [[= -> ->]|Hin].
    + by rewrite decide_True.
    + rewrite decide_False; [by apply IH|].
      intros ->. apply Hk'. apply list_elem_of_fmap. by exists (k', v).
Qed.

(** Assigning to a key already present replaces its value in place. *)
Lemma set_present k v v0 d :
  Dict.get k d = Some v0 →
  ∃ d1 d2, d = d1 ++ (k, v0) :: d2 ∧ Dict.set k v d = d1 ++ (k, v) :: d2.
Proof.
  induction d as [|[k' v'] d IH]; simpl; [done|].
  destruct (decide (k = k')) as [->|Hne].
  - intros [= ->]. by exists [], d.
  - intros H. destruct (IH H) as (d1 & d2 & -> & ->).
    by exists ((k', v') :: d1), d2.
Qed.

(** Assigning to a new key appends it. *)
Lemma set_absent k v d :
  Dict.get k d = None → Dict.set k v d = d ++ [(k, v)].
Proof.
  induction d as [|[k' v'] d IH]; simpl; [done|].
  destruct (decide (k = k')) as [->|Hne]; [done|].
  intros H. by rewrite IH.
Qed.

Lemma keys_set_present k v d :
  k ∈ Dict.keys d → Dict.keys (Dict.set k v d) = Dict.keys d.
Proof.
  intros Hin. apply get_is_Some in Hin as [v0 Hv0].
  destruct (set_present k v v0 d Hv0) as (d1 & d2 & -> & ->).
  unfold Dict.keys. by rewrite !fmap_app.
Qed.

Lemma keys_set_absent k v d :
  k ∉ Dict.keys d → Dict.keys (Dict.set k v d) = Dict.keys d ++ [k].
Proof.
  intros Hin. apply get_None in Hin. rewrite set_absent by done.
  unfold Dict.keys. by rewrite fmap_app.
Qed.

Lemma wf_set k v d : Dict.wf d → Dict.wf (Dict.set k v d).
Proof.
  unfold Dict.wf. intros Hwf.
  destruct (decide (k ∈ Dict.keys d)) as [Hin|Hin].
  - by rewrite keys_set_present.
  - rewrite keys_set_absent by done.
    apply NoDup_app. split; [done|]. split; [|apply NoDup_singleton].
    intros x Hx Hx'. apply list_elem_of_singleton in Hx' as ->. done.
Qed.
End facts.
End DictFacts.

(** ** The index of the population *)

Lemma make_ids2index_snoc (ids : list Z) (x : Z) :
  make_ids2index (ids ++ [x]) = <[x := length ids]> (make_ids2index ids).
Proof.
  unfold make_ids2index. by rewrite enumerate_snoc, fold_left_app.
Qed.

(** [ids2index] sends an id to a position that holds it. *)
Lemma ids2index_sound (ids : list Z) (a : Z) (i : nat) :
  make_ids2index ids !! a = Some i → ids !! i = Some a.
Proof.
  revert i. induction ids as [|x ids IH] using rev_ind; intros i.
  - unfold make_ids2index. simpl. by rewrite lookup_empty.
  - rewrite make_ids2index_snoc.
    destruct (decide (x = a)) as [->|Hne].
    + rewrite lookup_insert_eq. intros [= <-].
      by rewrite lookup_app_r, Nat.sub_diag.
    + rewrite lookup_insert_ne by done. intros H.
      apply lookup_app_l_Some. by apply IH.
Qed.

(** With distinct ids, it is the position of the id. *)
Lemma ids2index_complete (ids : list Z) (a : Z) (i : nat) :
  NoDup ids → ids !! i = Some a → make_ids2index ids !! a = Some i.
Proof.
  revert i. induction ids as [|x ids IH] using rev_ind; intros i Hnd Hi.
  - done.
  - rewrite make_ids2index_snoc.
    apply NoDup_app in Hnd as (Hnd & Hx & _).
    apply lookup_app_Some in Hi as [Hi|[Hlen Hi]].
    + rewrite lookup_insert_ne; [by apply IH|].
      intros ->. apply (Hx a); [|left]. by eapply list_elem_of_lookup_2.
    + destruct (i - length ids) as [|n] eqn:E; [|done].
      injection Hi as ->. replace i with (length ids) by lia.
      by rewrite lookup_insert_eq.
Qed.

Lemma ids2index_is_Some (ids : list Z) (a : Z) :
  a ∈ ids → is_Some (make_ids2index ids !! a).
Proof.
  induction ids as [|x ids IH] using rev_ind; intros Hin.
  - by apply elem_of_nil in Hin.
  - rewrite make_ids2index_snoc.
    destruct (decide (x = a)) as [->|Hne].
    + rewrite lookup_insert_eq. eauto.
    + rewrite lookup_insert_ne by done. apply IH.
      apply elem_of_app in Hin as [Hin|Hin]; [done|].
      apply list_elem_of_singleton in Hin. congruence.
Qed.

(** ** Reading and writing the matrix *)

Lemma mget_full (rows cols r c : nat) (v : float) :
  r < rows → c < cols → mget (full rows cols v) r c = Some v.
Proof.
  intros Hr Hc. unfold mget, full.
  rewrite lookup_replicate_2 by done. simpl.
  by apply lookup_replicate_2.
Qed.

Lemma square_full (n : nat) (v : float) : square n (full n n v).
Proof.
  unfold square, full. split; [apply length_replicate|].
  apply Forall_replicate, length_replicate.
Qed.

Lemma mset_square (n r c : nat) (v : float) (m m' : matrix) :
  mset r c v m = Ok m' → square n m → square n m'.
Proof.
  unfold mset. destruct (m !! r) as [row|] eqn:Hrow; [|done].
  case_decide; [|done]. intros [= <-] [Hlen Hrows]. split.
  - by rewrite length_insert.
  - apply Forall_insert; [done|]. rewrite length_insert.
    rewrite Forall_lookup in Hrows. by apply (Hrows _ _ Hrow).
Qed.

Lemma mget_mset (r c : nat) (v : float) (m m' : matrix) (r' c' : nat) :
  mset r c v m = Ok m' →
  mget m' r' c' = if decide (r' = r ∧ c' = c) then Some v else mget m r' c'.
Proof.
  unfold mset. destruct (m !! r) as [row|] eqn:Hrow; [|done].
  case_decide as Hc; [|done]. intros [= <-]. unfold mget.
  destruct (decide (r' = r)) as [->|Hr].
  - rewrite list_lookup_insert_eq by (by eapply lookup_lt_Some). simpl.
    rewrite Hrow. simpl. destruct (decide (c' = c)) as [->|Hc'].
    + rewrite decide_True by done. by apply list_lookup_insert_eq.
    + rewrite decide_False by tauto. by apply list_lookup_insert_ne.
  - rewrite list_lookup_insert_ne by done. rewrite decide_False by tauto. done.
Qed.

Lemma mset_Ok (n r c : nat) (v : float) (m : matrix) :
  square n m → r < n → c < n → ∃ m', mset r c v m = Ok m'.
Proof.
  intros [Hlen Hrows] Hr Hc. unfold mset.
  destruct (lookup_lt_is_Some_2 m r) as [row Hrow]; [lia|].
  rewrite Hrow. rewrite Forall_lookup in Hrows.
  rewrite decide_True by (by rewrite (Hrows _ _ Hrow)). eauto.
Qed.

(** ** Filling the matrix *)

Lemma last_dist_nil (b : Z) : last_dist b [] = None.
Proof. done. Qed.

Lemma last_dist_cons (b : Z) (h : Z * float) (l : list (Z * float)) :
  last_dist b (h :: l) =
  match last_dist b l with
  | Some d => Some d
  | None => if decide (h.1 = b) then Some h.2 else None
  end.
Proof.
  unfold last_dist. rewrite filter_cons.
  destruct (decide (h.1 = b)) as [Hb|Hb]; [|by destruct (last _)].
  rewrite last_cons. by destruct (last _).
Qed.

Lemma last_dist_snoc (b : Z) (h : Z * float) (l : list (Z * float)) :
  last_dist b (l ++ [h]) =
  if decide (h.1 = b) then Some h.2 else last_dist b l.
Proof.
  unfold last_dist. rewrite filter_app, filter_cons, filter_nil.
  destruct (decide (h.1 = b)) as [Hb|Hb].
  - by rewrite last_snoc.
  - by rewrite app_nil_r.
Qed.

Lemma last_dist_Some_elem_of (b : Z) (d : float) (l : list (Z * float)) :
  last_dist b l = Some d → (b, d) ∈ l.
Proof.
  unfold last_dist. destruct (last _) as [[b' d']|] eqn:E; [|done].
  intros [= <-]. apply last_Some_elem_of in E.
  apply list_elem_of_filter in E as [Hb Hin]. simpl in Hb. by subst.
Qed.

Lemma last_dist_None (b : Z) (l : list (Z * float)) :
  last_dist b l = None ↔ ∀ d, (b, d) ∉ l.
Proof.
  unfold last_dist. rewrite fmap_None, last_None. split.
  - intros Hnil d Hin.
    assert ((b, d) ∈ filter (λ h : Z * float, h.1 = b) l) as Hf
      by (by apply list_elem_of_filter).
    rewrite Hnil in Hf. by apply elem_of_nil in Hf.
  - intros Hno. destruct (filter _ l) as [|[b' d'] l'] eqn:E; [done|].
    assert ((b', d') ∈ filter (λ h : Z * float, h.1 = b) l) as Hf
      by (rewrite E; left).
    apply list_elem_of_filter in Hf as [Hb Hin]. simpl in Hb. subst.
    by destruct (Hno d').
Qed.

Section Fill.
Variable ids : list Z.

(** [ids2index] is injective. *)
Lemma index_eq (i r : nat) (x a : Z) :
  make_ids2index ids !! x = Some i → make_ids2index ids !! a = Some r →
  i = r ↔ x = a.
Proof.
  intros Hi Hr. split.
  - intros ->. apply ids2index_sound in Hi, Hr. congruence.
  - intros ->. congruence.
Qed.

(** The inner loop of line 174 on the row of [a]. *)
Lemma fill_row_entries (a : Z) (l : list (Z * float)) (m m' : matrix) :
  foldM (write_edge (make_ids2index ids) a) l m = Ok m' →
  ∀ i j x b,
    make_ids2index ids !! x = Some i → make_ids2index ids !! b = Some j →
    mget m' i j =
    if decide (x = a)
    then match last_dist b l with
         | Some d => Some d
         | None => mget m i j
         end
    else mget m i j.
Proof.
  revert m. induction l as [|h l IH]; intros m Hrun i j x b Hi Hj.
  - injection Hrun as <-. rewrite last_dist_nil. by case_decide.
  - simpl in Hrun. inv_bind Hrun. rename a0 into m1.
    rewrite (IH _ Hrun i j x b Hi Hj). rewrite last_dist_cons.
    unfold write_edge in Ha. inv_bind Ha. inv_bind Ha.
    apply subscript_Ok_inv in Ha0, Ha1.
    rewrite (mget_mset _ _ _ _ _ i j Ha).
    pose proof (index_eq i a0 x a Hi Ha0) as Hrow.
    pose proof (index_eq j a1 b h.1 Hj Ha1) as Hcol.
    destruct (decide (x = a)) as [Hx|Hx].
    + destruct (last_dist b l); [done|].
      destruct (decide (h.1 = b)) as [Hb|Hb].
      * rewrite decide_True; [done|]. split; [tauto|]. by apply Hcol.
      * rewrite decide_False; [done|]. intros [_ Hc]. apply Hb.
        symmetry. by apply Hcol.
    + rewrite decide_False; [done|]. tauto.
Qed.

Lemma fill_row_square (n : nat) (a : Z) (l : list (Z * float))
    (m m' : matrix) :
  foldM (write_edge (make_ids2index ids) a) l m = Ok m' →
  square n m → square n m'.
Proof.
  revert m. induction l as [|h l IH]; intros m Hrun Hsq.
  - by injection Hrun as <-.
  - simpl in Hrun. inv_bind Hrun. apply (IH _ Hrun).
    unfold write_edge in Ha. inv_bind Ha. inv_bind Ha.
    by eapply mset_square.
Qed.

Lemma fill_row_Ok (a : Z) (l : list (Z * float)) (m : matrix) :
  square (length ids) m → a ∈ ids → Forall (λ h, h.1 ∈ ids) l →
  ∃ m', foldM (write_edge (make_ids2index ids) a) l m = Ok m'.
Proof.
  intros Hsq Ha Hl. revert m Hsq.
  induction Hl as [|h l Hh Hl IH]; intros m Hsq; [by exists m|].
  destruct (ids2index_is_Some ids a Ha) as [r Hr].
  destruct (ids2index_is_Some ids h.1 Hh) as [c Hc].
  destruct (mset_Ok (length ids) r c h.2 m Hsq) as [m1 Hm1].
  { apply ids2index_sound in Hr. by eapply lookup_lt_Some. }
  { apply ids2index_sound in Hc. by eapply lookup_lt_Some. }
  destruct (IH m1) as [m' Hm']; [by eapply mset_square|].
  assert (write_edge (make_ids2index ids) a m h = Ok m1) as Hw.
  { unfold write_edge. rewrite Hr. simpl. rewrite Hc. done. }
  exists m'. simpl. by rewrite Hw.
Qed.

(** The outer loop of line 173 over the keys [ks]. *)
Lemma fill_keys_entries (dist : Dict.t (list (Z * float))) (ks : list Z)
    (m m' : matrix) :
  NoDup ks →
  foldM (fill_body (make_ids2index ids) dist) ks m = Ok m' →
  ∀ i j a b,
    make_ids2index ids !! a = Some i → make_ids2index ids !! b = Some j →
    mget m' i j =
    if decide (a ∈ ks)
    then match Dict.get a dist ≫= last_dist b with
         | Some d => Some d
         | None => mget m i j
         end
    else mget m i j.
Proof.
  intros Hks. revert m.
  induction Hks as [|k ks Hk Hks IH]; intros m Hrun i j a b Hi Hj.
  - injection Hrun as <-. rewrite decide_False; [done|].
    apply not_elem_of_nil.
  - simpl in Hrun. inv_bind Hrun. rename a0 into m1.
    rewrite (IH _ Hrun i j a b Hi Hj).
    unfold fill_body in Ha. inv_bind Ha. apply subscript_Ok_inv in Ha0.
    rewrite (fill_row_entries _ _ _ _ Ha i j a b Hi Hj).
    destruct (decide (a = k)) as [->|Hak].
    + rewrite decide_False by done. rewrite decide_True by left.
      rewrite Ha0. done.
    + destruct (decide (a ∈ ks)) as [Hin|Hin].
      * rewrite decide_True by (by right). done.
      * rewrite decide_False; [done|]. rewrite not_elem_of_cons. done.
Qed.

Lemma fill_keys_square (n : nat) (dist : Dict.t (list (Z * float)))
    (ks : list Z) (m m' : matrix) :
  foldM (fill_body (make_ids2index ids) dist) ks m = Ok m' → square n m → square n m'.
Proof.
  revert m. induction ks as [|k ks IH]; intros m Hrun Hsq.
  - by injection Hrun as <-.
  - simpl in Hrun. inv_bind Hrun. apply (IH _ Hrun).
    unfold fill_body in Ha. inv_bind Ha. by eapply fill_row_square.
Qed.

Lemma fill_keys_Ok (dist : Dict.t (list (Z * float))) (ks : list Z)
    (m : matrix) :
  closed ids dist → ks ⊆ Dict.keys dist → square (length ids) m →
  ∃ m', foldM (fill_body (make_ids2index ids) dist) ks m = Ok m'.
Proof.
  intros Hcl. revert m. induction ks as [|k ks IH]; intros m Hks Hsq.
  - by exists m.
  - assert (k ∈ Dict.keys dist) as Hk by (apply Hks; left).
    apply DictFacts.get_is_Some in Hk as [l Hl].
    assert (∃ m1, fill_body (make_ids2index ids) dist m k = Ok m1
                  ∧ square (length ids) m1) as (m1 & Hm1 & Hsq1).
    { unfold fill_body. rewrite Hl. simpl. destruct l as [|h l].
      - by exists m.
      - destruct (fill_row_Ok k (h :: l) m Hsq) as [m1 Hm1].
        + destruct h as [b d]. apply (Hcl k _ b d Hl). left.
        + apply Forall_forall. intros [b d] Hbd. simpl.
          by apply (Hcl k _ b d Hl).
        + exists m1. split; [done|]. by eapply fill_row_square. }
    destruct (IH m1) as [m' Hm']; [set_solver | done |].
    exists m'. simpl. by rewrite Hm1.
Qed.
End Fill.

(** ** The built matrix *)

Lemma build_matrix_square (ids : list Z) (dist : Dict.t (list (Z * float)))
    (m : matrix) :
  build_matrix ids dist = Ok m → square (length ids) m.
Proof.
  unfold build_matrix, fill_matrix. intros Hrun.
  eapply fill_keys_square; [done | apply square_full].
Qed.

(** Every entry addressed through [ids2index] holds [expected_entry]. *)
Lemma build_matrix_lookup (ids : list Z) (dist : Dict.t (list (Z * float)))
    (m : matrix) (a b : Z) (i j : nat) :
  Dict.wf dist →
  build_matrix ids dist = Ok m →
  make_ids2index ids !! a = Some i → make_ids2index ids !! b = Some j →
  mget m i j = Some (expected_entry dist a b).
Proof.
  unfold build_matrix, fill_matrix. intros Hwf Hrun Hi Hj.
  rewrite (fill_keys_entries ids dist _ _ _ Hwf Hrun i j a b Hi Hj).
  assert (mget (full (length ids) (length ids) infinity) i j = Some infinity)
    as ->.
  { apply ids2index_sound in Hi, Hj.
    apply mget_full; by eapply lookup_lt_Some. }
  unfold expected_entry. destruct (decide (a ∈ Dict.keys dist)) as [Hin|Hin].
  - apply DictFacts.get_is_Some in Hin as [l ->]. simpl.
    by destruct (last_dist b l).
  - apply DictFacts.get_None in Hin. by rewrite Hin.
Qed.

Lemma build_matrix_Ok (ids : list Z) (dist : Dict.t (list (Z * float))) :
  closed ids dist → ∃ m, build_matrix ids dist = Ok m.
Proof.
  intros Hcl. unfold build_matrix, fill_matrix.
  apply fill_keys_Ok; [done | done | apply square_full].
Qed.

Lemma expected_entry_last (dist : Dict.t (list (Z * float))) (a b : Z)
    (d : float) :
  observed_last dist a b d → expected_entry dist a b = d.
Proof. intros (l & Hl & Hd). unfold expected_entry. by rewrite Hl, Hd. Qed.

Lemma expected_entry_no_edge (dist : Dict.t (list (Z * float))) (a b : Z) :
  no_edge dist a b → expected_entry dist a b = infinity.
Proof.
  intros Hno. unfold expected_entry.
  destruct (Dict.get a dist) as [l|] eqn:Hl; [|done].
  destruct (last_dist b l) as [d|] eqn:Hd; [|done].
  destruct (Hno d). exists l. split; [done|].
  by apply last_dist_Some_elem_of.
Qed.

Lemma last_dist_app (b : Z) (l1 l2 : list (Z * float)) :
  last_dist b (l1 ++ l2) =
  match last_dist b l2 with
  | Some d => Some d
  | None => last_dist b l1
  end.
Proof.
  induction l2 as [|h l2 IH] using rev_ind.
  - by rewrite app_nil_r.
  - rewrite app_assoc, !last_dist_snoc. case_decide; [done | apply IH].
Qed.

Lemma last_dist_middle (b : Z) (d : float) (l1 l2 : list (Z * float)) :
  (∀ d', (b, d') ∉ l2) → last_dist b (l1 ++ (b, d) :: l2) = Some d.
Proof.
  intros Hno. apply last_dist_None in Hno.
  rewrite last_dist_app, last_dist_cons, Hno. simpl.
  by rewrite decide_True.
Qed.

(** ** The cases of the build *)

Lemma ids2index_None (ids : list Z) (a : Z) :
  make_ids2index ids !! a = None → a ∉ ids.
Proof.
  intros Hnone Hin. apply ids2index_is_Some in Hin as [i Hi]. congruence.
Qed.

Lemma ids2index_Some_elem_of (ids : list Z) (a : Z) (i : nat) :
  make_ids2index ids !! a = Some i → a ∈ ids ∧ i < length ids.
Proof.
  intros Hi. apply ids2index_sound in Hi.
  split; [by eapply list_elem_of_lookup_2 | by eapply lookup_lt_Some].
Qed.

Lemma write_edge_cases (ids : list Z) (a : Z) (h : Z * float) (m : matrix) :
  square (length ids) m →
  (∃ m', write_edge (make_ids2index ids) a m h = Ok m'
         ∧ square (length ids) m' ∧ a ∈ ids ∧ h.1 ∈ ids) ∨
  (write_edge (make_ids2index ids) a m h = Raise KeyError
   ∧ (a ∉ ids ∨ h.1 ∉ ids)).
Proof.
  intros Hsq. unfold write_edge.
  destruct (make_ids2index ids !! a) as [r|] eqn:Hr; simpl;
    [|right; split; [done|]; left; by apply ids2index_None].
  destruct (make_ids2index ids !! h.1) as [c|] eqn:Hc; simpl;
    [|right; split; [done|]; right; by apply ids2index_None].
  apply ids2index_Some_elem_of in Hr as [Ha Hr], Hc as [Hh Hc].
  destruct (mset_Ok (length ids) r c h.2 m Hsq Hr Hc) as [m' Hm'].
  left. exists m'. split_and!; [done | by eapply mset_square | done | done].
Qed.

Lemma fill_row_cases (ids : list Z) (a : Z) (l : list (Z * float))
    (m : matrix) :
  square (length ids) m →
  (∃ m', foldM (write_edge (make_ids2index ids) a) l m = Ok m'
         ∧ square (length ids) m'
         ∧ ∀ h, h ∈ l → a ∈ ids ∧ h.1 ∈ ids) ∨
  (foldM (write_edge (make_ids2index ids) a) l m = Raise KeyError
   ∧ ∃ h, h ∈ l ∧ (a ∉ ids ∨ h.1 ∉ ids)).
Proof.
  revert m. induction l as [|h l IH]; intros m Hsq.
  - left. exists m. split_and!; [done | done |].
    intros h Hh. by apply elem_of_nil in Hh.
  - simpl. destruct (write_edge_cases ids a h m Hsq)
      as [(m1 & -> & Hsq1 & Ha & Hh)|[-> Hbad]]; simpl.
    + destruct (IH m1 Hsq1) as [(m' & -> & Hsq' & Hall)|[-> (h' & Hh' & Hbad)]].
      * left. exists m'. split_and!; [done | done |].
        intros h' Hh'. apply elem_of_cons in Hh' as [->|Hh']; [done|].
        by apply Hall.
      * right. split; [done|]. exists h'. split; [by right | done].
    + right. split; [done|]. exists h. split; [left | done].
Qed.

Lemma fill_keys_cases (ids : list Z) (dist : Dict.t (list (Z * float)))
    (ks : list Z) (m : matrix) :
  ks ⊆ Dict.keys dist → square (length ids) m →
  (∃ m', foldM (fill_body (make_ids2index ids) dist) ks m = Ok m'
         ∧ ∀ k l h, k ∈ ks → Dict.get k dist = Some l → h ∈ l →
             k ∈ ids ∧ h.1 ∈ ids) ∨
  (foldM (fill_body (make_ids2index ids) dist) ks m = Raise KeyError
   ∧ ∃ k l h, Dict.get k dist = Some l ∧ h ∈ l ∧ (k ∉ ids ∨ h.1 ∉ ids)).
Proof.
  revert m. induction ks as [|k ks IH]; intros m Hks Hsq.
  - left. exists m. split; [done|]. intros k l h Hk.
    by apply elem_of_nil in Hk.
  - assert (k ∈ Dict.keys dist) as Hk by (apply Hks; left).
    apply DictFacts.get_is_Some in Hk as [l Hl].
    assert (fill_body (make_ids2index ids) dist m k
            = foldM (write_edge (make_ids2index ids) k) l m) as Hbody.
    { unfold fill_body. by rewrite Hl. }
    simpl. rewrite Hbody.
    destruct (fill_row_cases ids k l m Hsq)
      as [(m1 & -> & Hsq1 & Hall)|[-> (h & Hh & Hbad)]]; simpl.
    + destruct (IH m1) as [(m' & -> & Hrest)|[-> Hbad]];
        [by intros x Hx; apply Hks; right | done | |].
      * left. exists m'. split; [done|]. intros k' l' h Hk' Hl' Hh.
        apply elem_of_cons in Hk' as [->|Hk'].
        -- rewrite Hl in Hl'. injection Hl' as <-. by apply Hall.
        -- by apply (Hrest k' l' h).
      * by right.
    + right. split; [done|]. by exists k, l, h.
Qed.

Lemma fill_row_outside (ids : list Z) (a : Z) (l : list (Z * float))
    (m m' : matrix) (i j : nat) :
  foldM (write_edge (make_ids2index ids) a) l m = Ok m' →
  (∀ x, make_ids2index ids !! x ≠ Some i) ∨
  (∀ x, make_ids2index ids !! x ≠ Some j) →
  mget m' i j = mget m i j.
Proof.
  revert m. induction l as [|h l IH]; intros m Hrun Hout.
  - by injection Hrun as <-.
  - simpl in Hrun. inv_bind Hrun. rewrite (IH _ Hrun Hout).
    unfold write_edge in Ha. inv_bind Ha. inv_bind Ha.
    apply subscript_Ok_inv in Ha0, Ha1.
    rewrite (mget_mset _ _ _ _ _ i j Ha).
    rewrite decide_False; [done|]. intros [-> ->].
    destruct Hout as [Hout|Hout]; by eapply Hout.
Qed.

Lemma fill_keys_outside (ids : list Z) (dist : Dict.t (list (Z * float)))
    (ks : list Z) (m m' : matrix) (i j : nat) :
  foldM (fill_body (make_ids2index ids) dist) ks m = Ok m' →
  (∀ x, make_ids2index ids !! x ≠ Some i) ∨
  (∀ x, make_ids2index ids !! x ≠ Some j) →
  mget m' i j = mget m i j.
Proof.
  revert m. induction ks as [|k ks IH]; intros m Hrun Hout.
  - by injection Hrun as <-.
  - simpl in Hrun. inv_bind Hrun. rewrite (IH _ Hrun Hout).
    unfold fill_body in Ha. inv_bind Ha.
    by apply (fill_row_outside ids k a0 m a i j).
Qed.

(** ** The matrix properties *)

(** C3 (amended).  For a population of distinct ids and a mapping from ids
    to neighbour lists: the build returns a matrix whenever every id an
    edge mentions is in the population, and every matrix it returns is
    N×N, holds at [index(src)][index(dst)] the distance of the LAST pair
    listed for [(src, dst)] (the observed distance when the pair is listed
    once), holds the sentinel [infinity] wherever no edge is listed, and
    is not symmetrized. *)
Theorem build_matrix_entries (ids : list Z)
    (dist : Dict.t (list (Z * float))) :
  NoDup ids → Dict.wf dist →
  (closed ids dist → ∃ m, build_matrix ids dist = Ok m) ∧
  (∀ m, build_matrix ids dist = Ok m →
        square (length ids) m ∧
        matrix_entries (observed_last dist) ids dist m).
Proof.
  intros Hids Hwf. split; [apply build_matrix_Ok|].
  intros m Hm. split; [by apply (build_matrix_square ids dist)|].
  assert (∀ a b i j, ids !! i = Some a → ids !! j = Some b →
            mget m i j = Some (expected_entry dist a b)) as Hentry.
  { intros a b i j Hi Hj.
    apply (build_matrix_lookup ids dist m a b i j Hwf Hm);
      by apply ids2index_complete. }
  repeat split.
  - intros a b d i j Hi Hj Hedge.
    by rewrite (Hentry a b i j), (expected_entry_last dist a b d).
  - intros a b i j Hi Hj Hno.
    by rewrite (Hentry a b i j), (expected_entry_no_edge dist a b).
  - by rewrite (Hentry a b i j), (expected_entry_last dist a b d).
  - by rewrite (Hentry b a j i), (expected_entry_no_edge dist b a).
Qed.

Lemma dup_closed : closed dup_ids dup_dist.
Proof.
  intros a l b d Hl Hin. apply (list_elem_of_fmap_2 fst) in Hin.
  unfold dup_dist in Hl. simpl in Hl.
  destruct (decide (a = 1%Z)) as [->|_].
  - injection Hl as <-. simpl in Hin.
    assert (b = 2%Z) as ->.
    { rewrite !elem_of_cons, elem_of_nil in Hin. tauto. }
    split; apply (bool_decide_unpack _); vm_compute; exact I.
  - destruct (decide (a = 2%Z)) as [->|_]; [|done].
    injection Hl as <-. by apply elem_of_nil in Hin.
Qed.

Lemma build_matrix_entries_witness :
  ∃ m, build_matrix dup_ids dup_dist = Ok m ∧
       square (length dup_ids) m ∧
       matrix_entries (observed_last dup_dist) dup_ids dup_dist m.
Proof.
  destruct (build_matrix_entries dup_ids dup_dist) as [Hok Hspec].
  - apply (bool_decide_unpack _). vm_compute. exact I.
  - apply (bool_decide_unpack _). vm_compute. exact I.
  - destruct (Hok dup_closed) as [m Hm]. exists m.
    split; [exact Hm | exact (Hspec m Hm)].
Defined.

(** C3 as worded fails when a pair is listed twice: the population [1; 2]
    with [dist[1] = [(2, 0.5), (2, 0.75)]] is well formed and the build
    succeeds, but the entry for the observed edge [(1, 2, 0.5)] is
    [0.75]. *)
Lemma build_matrix_first_of_duplicates_lost :
  NoDup dup_ids ∧ Dict.wf dup_dist ∧ closed dup_ids dup_dist ∧
  build_matrix dup_ids dup_dist =
    Ok [[infinity; 0.75%float]; [infinity; infinity]] ∧
  ¬ (∀ m, build_matrix dup_ids dup_dist = Ok m →
          matrix_entries (observed dup_dist) dup_ids dup_dist m).
Proof.
  split; [apply (bool_decide_unpack _); vm_compute; exact I|].
  split; [apply (bool_decide_unpack _); vm_compute; exact I|].
  split; [apply dup_closed|].
  split; [vm_compute; reflexivity|].
  intros Hclaim.
  destruct (Hclaim [[infinity; 0.75%float]; [infinity; infinity]])
    as (Hback & _); [vm_compute; reflexivity|].
  specialize (Hback 1%Z 2%Z 0.5%float 0 1 eq_refl eq_refl).
  assert (observed dup_dist 1 2 0.5) as Hobs.
  { eexists. split; [reflexivity | left]. }
  specialize (Hback Hobs).
  apply (f_equal (λ o, from_option (PrimFloat.eqb 0.5) false o)) in Hback.
  vm_compute in Hback. discriminate.
Qed.

(** C9.  When the list of [src] names [dst] several times, the build
    raises nothing and [matrix[index(src)][index(dst)]] is the distance of
    the last of these pairs: for [dist[src] = l1 ++ (dst, d) :: l2] with no
    pair for [dst] in [l2], the entry is [d], whatever [l1] lists. *)
Theorem duplicate_target_last_wins (ids : list Z)
    (dist : Dict.t (list (Z * float))) (src dst : Z) (d : float)
    (l1 l2 : list (Z * float)) (i j : nat) :
  Dict.wf dist → closed ids dist →
  Dict.get src dist = Some (l1 ++ (dst, d) :: l2) →
  (∀ d', (dst, d') ∉ l2) →
  make_ids2index ids !! src = Some i → make_ids2index ids !! dst = Some j →
  ∃ m, build_matrix ids dist = Ok m ∧ mget m i j = Some d.
Proof.
  intros Hwf Hcl Hsrc Hlast Hi Hj.
  destruct (build_matrix_Ok ids dist Hcl) as [m Hm]. exists m.
  split; [done|].
  rewrite (build_matrix_lookup ids dist m src dst i j Hwf Hm Hi Hj).
  unfold expected_entry. rewrite Hsrc. by rewrite last_dist_middle.
Qed.

Lemma duplicate_target_last_wins_witness :
  ∃ m, build_matrix dup_ids dup_dist = Ok m ∧ mget m 0 1 = Some 0.75%float.
Proof.
  apply (duplicate_target_last_wins dup_ids dup_dist 1 2 0.75
           [(2%Z, 0.5%float)] [] 0 1).
  - apply (bool_decide_unpack _). vm_compute. exact I.
  - apply dup_closed.
  - reflexivity.
  - intros d'. apply not_elem_of_nil.
  - reflexivity.
  - reflexivity.
Defined.

(** ** Positions of a label *)

Lemma indices_of_snoc (k : Z) (labels : list Z) (x : Z) :
  indices_of k (labels ++ [x]) =
  indices_of k labels ++ (if decide (x = k) then [length labels] else []).
Proof.
  unfold indices_of. rewrite length_app. simpl.
  rewrite Nat.add_1_r, seq_S, filter_app. simpl. f_equal.
  - generalize (le_n (length labels)).
    generalize (length labels) at 1 3 4 as n.
    induction n as [|n IH]; intros Hn; [done|].
    rewrite seq_S, !filter_app, IH by lia. f_equal. simpl.
    rewrite !filter_cons, !filter_nil.
    rewrite lookup_app_l by lia. done.
  - rewrite filter_cons, filter_nil.
    rewrite lookup_app_r, Nat.sub_diag by lia. simpl.
    destruct (decide (x = k)) as [->|Hne].
    + by rewrite decide_True.
    + rewrite decide_False; [done|]. congruence.
Qed.

Lemma elem_of_indices_of (k : Z) (labels : list Z) (i : nat) :
  i ∈ indices_of k labels ↔ labels !! i = Some k.
Proof.
  unfold indices_of. rewrite list_elem_of_filter, elem_of_seq. split.
  - tauto.
  - intros Hi. split; [done|]. apply lookup_lt_Some in Hi. lia.
Qed.

Lemma indices_of_nil (k : Z) (labels : list Z) :
  indices_of k labels = [] ↔ k ∉ labels.
Proof.
  split.
  - intros Hnil Hin. apply list_elem_of_lookup_1 in Hin as [i Hi].
    apply elem_of_indices_of in Hi. rewrite Hnil in Hi.
    by apply elem_of_nil in Hi.
  - intros Hin. destruct (indices_of k labels) as [|i l] eqn:E; [done|].
    destruct Hin. assert (i ∈ indices_of k labels) as Hi by (rewrite E; left).
    apply elem_of_indices_of in Hi. by eapply list_elem_of_lookup_2.
Qed.

Lemma indices_of_sorted (k : Z) (labels : list Z) :
  StronglySorted lt (indices_of k labels).
Proof.
  induction labels as [|x labels IH] using rev_ind; [constructor|].
  rewrite indices_of_snoc. case_decide; [|by rewrite app_nil_r].
  apply StronglySorted_app. split_and!; [|done|repeat constructor].
  intros i j Hi Hj. apply list_elem_of_singleton in Hj as ->.
  apply elem_of_indices_of in Hi. by eapply lookup_lt_Some.
Qed.

Lemma sorted_head_le_last (l : list nat) (i j : nat) :
  StronglySorted lt l → head l = Some i → last l = Some j → i ≤ j.
Proof.
  intros Hl Hi Hj. destruct l as [|x l]; [done|]. injection Hi as ->.
  apply last_Some_elem_of in Hj. apply elem_of_cons in Hj as [->|Hj]; [done|].
  apply StronglySorted_cons in Hl as [Hall _].
  rewrite Forall_forall in Hall. specialize (Hall j Hj). lia.
Qed.

Lemma sorted_le_last (l : list nat) (i j : nat) :
  StronglySorted lt l → last l = Some j → i ∈ l → i ≤ j.
Proof.
  intros Hl Hj Hi. apply last_Some in Hj as [l' ->].
  apply StronglySorted_app in Hl as (Hcross & _ & _).
  apply elem_of_app in Hi as [Hi|Hi].
  - specialize (Hcross i j Hi). rewrite list_elem_of_singleton in Hcross.
    specialize (Hcross eq_refl). lia.
  - apply list_elem_of_singleton in Hi. lia.
Qed.

Lemma sorted_head_le (l : list nat) (i j : nat) :
  StronglySorted lt l → head l = Some i → j ∈ l → i ≤ j.
Proof.
  intros Hl Hi Hj. destruct l as [|x l]; [done|]. injection Hi as ->.
  apply elem_of_cons in Hj as [->|Hj]; [done|].
  apply StronglySorted_cons in Hl as [Hall _].
  rewrite Forall_forall in Hall. specialize (Hall j Hj). lia.
Qed.

(** ** Grouping the frames by label *)

Lemma dict_set_set {V} (k : Z) (v v' : V) (d : Dict.t V) :
  Dict.set k v' (Dict.set k v d) = Dict.set k v' d.
Proof.
  induction d as [|[k0 v0] d IH]; simpl.
  - by rewrite decide_True.
  - destruct (decide (k = k0)) as [->|Hne]; simpl.
    + by rewrite decide_True.
    + rewrite decide_False by done. by rewrite IH.
Qed.

(** A label seen before: its group grows at the end. *)
Lemma group_step_seen (g : Dict.t (list nat)) (i : nat) (x : Z)
    (l : list nat) :
  Dict.get x g = Some l → group_step g (i, x) = Dict.set x (l ++ [i]) g.
Proof.
  intros Hl. unfold group_step, Dict.mem.
  rewrite bool_decide_eq_true_2 by (rewrite Hl; eauto). by rewrite Hl.
Qed.

(** A new label: a group holding only [i] is appended. *)
Lemma group_step_new (g : Dict.t (list nat)) (i : nat) (x : Z) :
  Dict.get x g = None → group_step g (i, x) = g ++ [(x, [i])].
Proof.
  intros Hl. unfold group_step, Dict.mem.
  rewrite bool_decide_eq_false_2 by (rewrite Hl; by intros [? ?]).
  rewrite DictFacts.get_set_eq. simpl. rewrite dict_set_set.
  by apply DictFacts.set_absent.
Qed.

Lemma group_frames_snoc (labels : list Z) (x : Z) :
  group_frames (labels ++ [x]) =
  group_step (group_frames labels) (length labels, x).
Proof.
  unfold group_frames. by rewrite enumerate_snoc, fold_left_app.
Qed.

Lemma first_before_head_l (p p' q : Z * list nat) :
  head p.2 = head p'.2 → first_before p q → first_before p' q.
Proof. intros Hh (i & j & Hi & Hj & Hij). exists i, j. by rewrite <-Hh. Qed.

Lemma first_before_head_r (p q q' : Z * list nat) :
  head q.2 = head q'.2 → first_before p q → first_before p q'.
Proof. intros Hh (i & j & Hi & Hj & Hij). exists i, j. by rewrite <-Hh. Qed.

Lemma grouped_nonempty (labels : list Z) (g : Dict.t (list nat)) (k : Z)
    (idxs : list nat) :
  grouped labels g → Dict.get k g = Some idxs →
  ∃ i, head idxs = Some i ∧ i < length labels.
Proof.
  intros (Hwf & Hkeys & Hget & Hsort) Hk.
  assert (k ∈ labels) as Hin.
  { apply Hkeys, DictFacts.get_is_Some. eauto. }
  rewrite (Hget k idxs Hk).
  destruct (indices_of k labels) as [|i l] eqn:E.
  - apply indices_of_nil in E. done.
  - exists i. split; [done|].
    assert (i ∈ indices_of k labels) as Hi by (rewrite E; left).
    apply elem_of_indices_of in Hi. by eapply lookup_lt_Some.
Qed.

Lemma grouped_step (labels : list Z) (g : Dict.t (list nat)) (x : Z) :
  grouped labels g →
  grouped (labels ++ [x]) (group_step g (length labels, x)).
Proof.
  intros Hg. pose proof Hg as (Hwf & Hkeys & Hget & Hsort).
  destruct (Dict.get x g) as [l|] eqn:Hx.
  - (* the label has a group already *)
    rewrite (group_step_seen g _ x l Hx).
    assert (x ∈ Dict.keys g) as Hxk by (apply DictFacts.get_is_Some; eauto).
    split_and!.
    + by apply DictFacts.wf_set.
    + intros k. rewrite DictFacts.keys_set_present by done.
      rewrite elem_of_app, list_elem_of_singleton, Hkeys.
      split; [tauto|]. intros [?| ->]; [done|]. by apply Hkeys.
    + intros k idxs. rewrite indices_of_snoc.
      destruct (decide (x = k)) as [<-|Hne].
      * rewrite DictFacts.get_set_eq. intros [= <-].
        by rewrite (Hget x l Hx).
      * rewrite DictFacts.get_set_ne by done. rewrite app_nil_r. apply Hget.
    + destruct (grouped_nonempty labels g x l Hg Hx) as (i & Hi & _).
      assert (head (l ++ [length labels]) = head l) as Hhead.
      { destruct l; [done|]. done. }
      destruct (DictFacts.set_present x (l ++ [length labels]) l g Hx)
        as (d1 & d2 & Hd & ->).
      rewrite Hd in Hsort.
      apply StronglySorted_app in Hsort as (Hcross & Hd1 & Hd2).
      apply StronglySorted_cons in Hd2 as [Hall Hd2].
      apply StronglySorted_app. split_and!; [|done|].
      * intros p q Hp Hq. apply elem_of_cons in Hq as [->|Hq].
        -- apply (first_before_head_r p (x, l)); [done|].
           apply Hcross; [done | left].
        -- apply Hcross; [done | by right].
      * apply StronglySorted_cons. split; [|done].
        eapply Forall_impl; [exact Hall|]. intros q.
        by apply (first_before_head_l (x, l)).
  - (* first occurrence of the label *)
    rewrite (group_step_new g _ x Hx).
    assert (x ∉ Dict.keys g) as Hxk by (by apply DictFacts.get_None).
    assert (Dict.set x [length labels] g = g ++ [(x, [length labels])])
      as Hset by (by apply DictFacts.set_absent).
    rewrite <-Hset. split_and!.
    + by apply DictFacts.wf_set.
    + intros k. rewrite DictFacts.keys_set_absent by done.
      by rewrite !elem_of_app, !list_elem_of_singleton, Hkeys.
    + intros k idxs. rewrite indices_of_snoc.
      destruct (decide (x = k)) as [<-|Hne].
      * rewrite DictFacts.get_set_eq. intros [= <-].
        assert (indices_of x labels = []) as ->; [|done].
        apply indices_of_nil. by rewrite <-Hkeys.
      * rewrite DictFacts.get_set_ne by done. rewrite app_nil_r. apply Hget.
    + rewrite Hset. apply StronglySorted_app.
      split_and!; [|done|repeat constructor].
      intros [k idxs] q Hp Hq. apply list_elem_of_singleton in Hq as ->.
      apply (DictFacts.elem_of_get _ _ _ Hwf) in Hp.
      destruct (grouped_nonempty labels g k idxs Hg Hp) as (i & Hi & Hlt).
      by exists i, (length labels).
Qed.

Lemma group_frames_grouped (labels : list Z) :
  grouped labels (group_frames labels).
Proof.
  induction labels as [|x labels IH] using rev_ind.
  - split_and!; [constructor | | done | constructor].
    intros k. split; intros H; by apply elem_of_nil in H.
  - rewrite group_frames_snoc. by apply grouped_step.
Qed.

(** ** Emitting the segments *)

Lemma make_segment_inv (timestamps : list float) (label : Z)
    (idxs : list nat) (s : Segment) :
  make_segment timestamps label idxs = Ok s →
  emitted_from timestamps (label, idxs) s.
Proof.
  unfold make_segment. intros H.
  inv_bind H. inv_bind H. inv_bind H. inv_bind H. injection H as <-.
  apply subscript_Ok_inv in Ha, Ha0, Ha1, Ha2.
  split_and!; [done | done |]. by exists a, a1.
Qed.

Lemma make_segment_Ok (timestamps : list float) (label : Z)
    (idxs : list nat) :
  idxs ≠ [] → Forall (λ i, i < length timestamps) idxs →
  ∃ s, make_segment timestamps label idxs = Ok s.
Proof.
  intros Hne Hall. rewrite Forall_forall in Hall.
  destruct (head idxs) as [i|] eqn:Hi; [|by apply head_None in Hi].
  destruct (last idxs) as [j|] eqn:Hj; [|by apply last_None in Hj].
  destruct (lookup_lt_is_Some_2 timestamps i) as [t Ht].
  { apply Hall. by apply head_Some_elem_of. }
  destruct (lookup_lt_is_Some_2 timestamps j) as [u Hu].
  { apply Hall. by apply last_Some_elem_of. }
  exists (MkSegment label t u idxs). unfold make_segment.
  rewrite Hi. simpl. rewrite Ht. simpl. rewrite Hj. simpl. by rewrite Hu.
Qed.

Lemma emit_segments_inv (timestamps : list float)
    (items : list (Z * list nat)) (segs : list Segment) :
  emit_segments timestamps items = Ok segs →
  Forall2 (emitted_from timestamps) (filter (λ p, p.1 ≠ noise) items) segs.
Proof.
  revert segs. induction items as [|[label idxs] items IH]; intros segs Hrun.
  - injection Hrun as <-. constructor.
  - simpl in Hrun. rewrite filter_cons. simpl.
    destruct (decide (label = noise)) as [Hn|Hn].
    + rewrite decide_False by tauto. by apply IH.
    + rewrite decide_True by done. inv_bind Hrun. inv_bind Hrun.
      injection Hrun as <-. constructor; [|by apply IH].
      by apply make_segment_inv.
Qed.

Lemma emit_segments_Ok (timestamps : list float)
    (items : list (Z * list nat)) :
  Forall (λ p, p.2 ≠ [] ∧ Forall (λ i, i < length timestamps) p.2) items →
  ∃ segs, emit_segments timestamps items = Ok segs.
Proof.
  induction 1 as [|[label idxs] items [Hne Hall] _ [segs IH]];
    [by exists []|]. simpl.
  destruct (decide (label = noise)); [by exists segs|].
  destruct (make_segment_Ok timestamps label idxs Hne Hall) as [s Hs].
  exists (s :: segs). by rewrite Hs, IH.
Qed.

(** The reconstruction returns when every position has a timestamp. *)
Lemma segments_Ok (labels : list Z) (timestamps : list float) :
  length labels ≤ length timestamps →
  ∃ segs, segments labels timestamps = Ok segs.
Proof.
  intros Hlen. apply emit_segments_Ok, Forall_forall.
  intros [k idxs] Hin. simpl.
  pose proof (group_frames_grouped labels) as Hg.
  pose proof Hg as (Hwf & _ & Hget & _).
  apply (DictFacts.elem_of_get _ _ _ Hwf) in Hin.
  destruct (grouped_nonempty labels _ k idxs Hg Hin) as (i & Hi & _).
  split; [by destruct idxs|].
  rewrite (Hget k idxs Hin). apply Forall_forall. intros j Hj.
  apply elem_of_indices_of, lookup_lt_Some in Hj. lia.
Qed.

Lemma Forall2_fmap_eq {A B C} (R : A → B → Prop) (f : A → C) (g : B → C)
    (l : list A) (k : list B) :
  (∀ x y, R x y → f x = g y) → Forall2 R l k → f <$> l = g <$> k.
Proof.
  intros HR. induction 1 as [|x y l k Hxy _ IH]; [done|].
  csimpl. by rewrite (HR x y Hxy), IH.
Qed.

Lemma StronglySorted_Forall2 {A B} (R : A → A → Prop) (S : B → B → Prop)
    (T : A → B → Prop) (l : list A) (k : list B) :
  (∀ x x' y y', R x x' → T x y → T x' y' → S y y') →
  Forall2 T l k → StronglySorted R l → StronglySorted S k.
Proof.
  intros HRS Hlk. induction Hlk as [|x y l k Hxy Hlk IH]; intros Hl;
    [constructor|].
  apply StronglySorted_cons in Hl as [Hall Hl].
  apply StronglySorted_cons. split; [|by apply IH].
  rewrite Forall_forall in Hall. apply Forall_forall. intros y' Hy'.
  apply list_elem_of_lookup_1 in Hy' as [n Hn].
  destruct (Forall2_lookup_r _ _ _ _ _ Hlk Hn) as (x' & Hx' & Hxy').
  apply (HRS x x' y y'); [|done|done].
  apply Hall. by eapply list_elem_of_lookup_2.
Qed.

Lemma StronglySorted_filter {A} (R : A → A → Prop) (P : A → Prop)
    `{∀ x, Decision (P x)} (l : list A) :
  StronglySorted R l → StronglySorted R (filter P l).
Proof.
  induction 1 as [|x l Hl IH Hall]; [constructor|].
  rewrite filter_cons. case_decide; [|done].
  apply StronglySorted_cons. split; [|done].
  rewrite Forall_forall in Hall. apply Forall_forall. intros y Hy.
  apply Hall. by apply list_elem_of_filter in Hy as [_ Hy].
Qed.

(** What [segments] returns: one segment per label other than noise, in
    the order in which the labels first occur, each holding every position
    of its label and the timestamps of the first and of the last one. *)
Lemma segments_inv (labels : list Z) (timestamps : list float)
    (segs : list Segment) :
  segments labels timestamps = Ok segs →
  NoDup (seg_label <$> segs) ∧
  (∀ k, k ∈ seg_label <$> segs ↔ k ∈ labels ∧ k ≠ noise) ∧
  (∀ s, s ∈ segs →
     frame_indices s = indices_of (seg_label s) labels ∧
     ∃ i j, head (frame_indices s) = Some i ∧
            last (frame_indices s) = Some j ∧
            timestamps !! i = Some (start_time s) ∧
            timestamps !! j = Some (end_time s)) ∧
  StronglySorted starts_before segs.
Proof.
  intros Hrun. apply emit_segments_inv in Hrun.
  pose proof (group_frames_grouped labels) as (Hwf & Hkeys & Hget & Hsort).
  set (g := group_frames labels) in *.
  set (kept := filter (λ p : Z * list nat, p.1 ≠ noise) g) in *.
  assert (seg_label <$> segs = kept.*1) as Hlabels.
  { symmetry. apply (Forall2_fmap_eq (emitted_from timestamps)); [|done].
    by intros p s (-> & _). }
  split_and!.
  - rewrite Hlabels. eapply sublist_NoDup; [exact Hwf|].
    apply fmap_sublist, sublist_filter.
  - intros k. rewrite Hlabels, <-Hkeys. unfold Dict.keys.
    rewrite !list_elem_of_fmap. split.
    + intros ([k' idxs] & -> & Hin).
      apply list_elem_of_filter in Hin as [Hn Hin]. split; [|done].
      by exists (k', idxs).
    + intros [([k' idxs] & -> & Hin) Hn]. exists (k', idxs).
      split; [done|]. by apply list_elem_of_filter.
  - intros s Hs. apply list_elem_of_lookup_1 in Hs as [n Hn].
    destruct (Forall2_lookup_r _ _ _ _ _ Hrun Hn)
      as ([k idxs] & Hp & Hk & Hidx & i & j & Hi & Hj & Hti & Htj).
    simpl in *. apply list_elem_of_lookup_2 in Hp.
    apply list_elem_of_filter in Hp as [_ Hp].
    apply (DictFacts.elem_of_get _ _ _ Hwf) in Hp.
    rewrite Hk, Hidx. split; [by apply Hget|]. by exists i, j.
  - apply (StronglySorted_Forall2 first_before starts_before
             (emitted_from timestamps) kept segs); [|done|].
    + intros p q s t (i & j & Hi & Hj & Hij) (_ & Hs & _) (_ & Ht & _).
      exists i, j. by rewrite Hs, Ht.
    + by apply StronglySorted_filter.
Qed.

Lemma nondecreasingb_correct (timestamps : list float) :
  nondecreasingb timestamps = true → nondecreasing timestamps.
Proof.
  induction timestamps as [|t ts IH]; intros Hb i j x y Hij Hi Hj.
  - done.
  - simpl in Hb. apply andb_prop in Hb as [Hb Hrest].
    apply andb_prop in Hb as [Hrefl Hall].
    destruct i as [|i], j as [|j]; simpl in Hi, Hj; simplify_eq.
    + done.
    + rewrite forallb_forall in Hall. apply Hall.
      apply list_elem_of_In. by eapply list_elem_of_lookup_2.
    + lia.
    + apply (IH Hrest i j); [lia | done | done].
Qed.

Lemma StronglySorted_impl_elem {A} (R S : A → A → Prop) (l : list A) :
  (∀ x y, x ∈ l → y ∈ l → R x y → S x y) →
  StronglySorted R l → StronglySorted S l.
Proof.
  intros HRS Hl. induction Hl as [|x l Hl IH Hall]; [constructor|].
  constructor.
  - apply IH. intros y z Hy Hz. apply HRS; by right.
  - rewrite Forall_forall in Hall. apply Forall_forall. intros y Hy.
    apply HRS; [left | by right | by apply Hall].
Qed.

Lemma count_by_key {A} (f : A → Z) (k : Z) (l : list A) :
  NoDup (f <$> l) →
  length (filter (λ x, f x = k) l) = if decide (k ∈ f <$> l) then 1 else 0.
Proof.
  induction l as [|x l IH]; intros Hnd.
  - rewrite decide_False; [done | apply not_elem_of_nil].
  - rewrite fmap_cons in Hnd |- *.
    apply NoDup_cons in Hnd as [Hx Hnd]. rewrite filter_cons.
    destruct (decide (f x = k)) as [<-|Hne]; simpl; rewrite (IH Hnd).
    + rewrite (decide_False (P := f x ∈ f <$> l)) by done.
      rewrite decide_True by left. done.
    + destruct (decide (k ∈ f <$> l)) as [Hin|Hin].
      * rewrite decide_True by (by right). done.
      * rewrite decide_False; [done|]. rewrite not_elem_of_cons. done.
Qed.

(** ** The segments *)

(** C1 (amended).  The reconstruction emits exactly one Segment per
    distinct non-noise label, whatever the number of runs in which the
    label occurs: the Segment of a label holds every position that carries
    it, so runs separated by other labels or by noise end up in the same
    Segment, and its start and end timestamps are those of the first and of
    the last position of the label, spanning every gap between its runs. *)
Theorem one_segment_per_label (labels : list Z) (timestamps : list float) :
  length labels ≤ length timestamps →
  ∃ segs, segments labels timestamps = Ok segs ∧
    (∀ k, k ≠ noise →
       length (filter (λ s, seg_label s = k) segs) =
       if decide (k ∈ labels) then 1 else 0) ∧
    (∀ s, s ∈ segs →
       seg_label s ≠ noise ∧
       frame_indices s = indices_of (seg_label s) labels ∧
       ∃ i j, head (frame_indices s) = Some i ∧
              last (frame_indices s) = Some j ∧
              timestamps !! i = Some (start_time s) ∧
              timestamps !! j = Some (end_time s) ∧
              ∀ p, labels !! p = Some (seg_label s) → i ≤ p ≤ j).
Proof.
  intros Hlen. destruct (segments_Ok labels timestamps Hlen) as [segs Hrun].
  exists segs. split; [done|].
  destruct (segments_inv labels timestamps segs Hrun)
    as (Hnd & Hkeys & Hsegs & _).
  split.
  - intros k Hk. rewrite (count_by_key seg_label k segs Hnd).
    destruct (decide (k ∈ labels)) as [Hin|Hin].
    + rewrite decide_True; [done|]. by apply Hkeys.
    + rewrite decide_False; [done|]. rewrite Hkeys. tauto.
  - intros s Hs.
    destruct (Hsegs s Hs) as (Hidx & i & j & Hi & Hj & Hti & Htj).
    split_and!; [|done|].
    + apply (Hkeys (seg_label s)), list_elem_of_fmap. by exists s.
    + exists i, j. split_and!; [done | done | done | done |].
      intros p Hp. apply elem_of_indices_of in Hp. rewrite <-Hidx in Hp.
      assert (StronglySorted lt (frame_indices s)) as Hsorted.
      { rewrite Hidx. apply indices_of_sorted. }
      split.
      * by apply (sorted_head_le (frame_indices s)).
      * by apply (sorted_le_last (frame_indices s)).
Qed.

Lemma one_segment_per_label_witness :
  ∃ segs, segments split_labels split_timestamps = Ok segs ∧
    (∀ k, k ≠ noise →
       length (filter (λ s, seg_label s = k) segs) =
       if decide (k ∈ split_labels) then 1 else 0) ∧
    (∀ s, s ∈ segs →
       seg_label s ≠ noise ∧
       frame_indices s = indices_of (seg_label s) split_labels ∧
       ∃ i j, head (frame_indices s) = Some i ∧
              last (frame_indices s) = Some j ∧
              split_timestamps !! i = Some (start_time s) ∧
              split_timestamps !! j = Some (end_time s) ∧
              ∀ p, split_labels !! p = Some (seg_label s) → i ≤ p ≤ j).
Proof.
  apply (one_segment_per_label split_labels split_timestamps).
  vm_compute. lia.
Defined.

(** C1 as worded fails: label [0] occurs in two runs around a noise
    frame, and a single Segment with frames [0] and [2] is emitted. *)
Lemma split_label_is_merged :
  segments split_labels split_timestamps = Ok [MkSegment 0 0 2 [0; 2]] ∧
  run_count 0 split_labels = 2 ∧
  ¬ one_segment_per_run split_labels split_timestamps.
Proof.
  split; [vm_compute; reflexivity|]. split; [vm_compute; reflexivity|].
  intros Hclaim.
  specialize (Hclaim [MkSegment 0 0 2 [0; 2]]).
  assert (segments split_labels split_timestamps
          = Ok [MkSegment 0 0 2 [0; 2]]) as Hrun by (vm_compute; reflexivity).
  specialize (Hclaim Hrun 0%Z).
  assert (0%Z ≠ noise) as Hk by done.
  assert (2 ≤ run_count 0 split_labels) as Hruns by (vm_compute; lia).
  specialize (Hclaim Hk Hruns). vm_compute in Hclaim. discriminate.
Qed.

(** A Segment holds exactly the positions that carry its label. *)
Lemma segment_members (labels : list Z) (timestamps : list float)
    (segs : list Segment) (s : Segment) (i : nat) :
  segments labels timestamps = Ok segs → s ∈ segs →
  i ∈ frame_indices s ↔ labels !! i = Some (seg_label s).
Proof.
  intros Hrun Hs.
  destruct (segments_inv labels timestamps segs Hrun) as (_ & _ & Hsegs & _).
  destruct (Hsegs s Hs) as [-> _]. apply elem_of_indices_of.
Qed.

Lemma segment_label_not_noise (labels : list Z) (timestamps : list float)
    (segs : list Segment) (s : Segment) :
  segments labels timestamps = Ok segs → s ∈ segs → seg_label s ≠ noise.
Proof.
  intros Hrun Hs.
  destruct (segments_inv labels timestamps segs Hrun) as (_ & Hkeys & _).
  apply (Hkeys (seg_label s)), list_elem_of_fmap. by exists s.
Qed.

(** Two emitted Segments with the same label are the same one. *)
Lemma segment_label_position (labels : list Z) (timestamps : list float)
    (segs : list Segment) (a b : nat) (s t : Segment) :
  segments labels timestamps = Ok segs →
  segs !! a = Some s → segs !! b = Some t → seg_label s = seg_label t →
  a = b.
Proof.
  intros Hrun Ha Hb Hst.
  destruct (segments_inv labels timestamps segs Hrun) as (Hnd & _).
  apply (NoDup_lookup (seg_label <$> segs) a b (seg_label s) Hnd).
  - by rewrite list_lookup_fmap, Ha.
  - by rewrite list_lookup_fmap, Hb, Hst.
Qed.

(** C4 (amended).  Every position whose label is not noise lies in
    exactly one emitted Segment; no Segment holds a noise position; the
    lists of frame indices of two different Segments are disjoint; and the
    positions held by the Segments are exactly the non-noise positions. *)
Theorem segments_partition (labels : list Z) (timestamps : list float) :
  length labels ≤ length timestamps →
  ∃ segs, segments labels timestamps = Ok segs ∧
    (∀ i k, labels !! i = Some k → k ≠ noise →
       ∃ a s, segs !! a = Some s ∧ i ∈ frame_indices s ∧
              ∀ b t, segs !! b = Some t → i ∈ frame_indices t → b = a) ∧
    (∀ s i, s ∈ segs → i ∈ frame_indices s → labels !! i ≠ Some noise) ∧
    (∀ a b s t, a ≠ b → segs !! a = Some s → segs !! b = Some t →
       ∀ i, i ∈ frame_indices s → i ∉ frame_indices t) ∧
    (∀ i, (∃ s, s ∈ segs ∧ i ∈ frame_indices s) ↔
          (∃ k, labels !! i = Some k ∧ k ≠ noise)).
Proof.
  intros Hlen. destruct (segments_Ok labels timestamps Hlen) as [segs Hrun].
  exists segs. split; [done|].
  pose proof (segment_members labels timestamps segs) as Hmem.
  pose proof (segment_label_not_noise labels timestamps segs) as Hnoise.
  destruct (segments_inv labels timestamps segs Hrun) as (_ & Hkeys & _).
  assert (∀ i k, labels !! i = Some k → k ≠ noise →
            ∃ a s, segs !! a = Some s ∧ seg_label s = k
                   ∧ i ∈ frame_indices s) as Hcover.
  { intros i k Hi Hk.
    assert (k ∈ seg_label <$> segs) as Hin.
    { apply Hkeys. split; [by eapply list_elem_of_lookup_2 | done]. }
    apply list_elem_of_fmap in Hin as (s & -> & Hs).
    pose proof Hs as Hs'. apply list_elem_of_lookup_1 in Hs' as [a Ha].
    exists a, s. split_and!; [done | done |]. by apply (Hmem s i Hrun). }
  split_and!.
  - intros i k Hi Hk. destruct (Hcover i k Hi Hk) as (a & s & Ha & Hs & Hin).
    exists a, s. split_and!; [done | done |]. intros b t Hb Ht.
    apply (segment_label_position labels timestamps segs b a t s Hrun Hb Ha).
    apply (Hmem t i Hrun) in Ht; [|by eapply list_elem_of_lookup_2].
    congruence.
  - intros s i Hs Hi Hlab. apply (Hmem s i Hrun Hs) in Hi.
    apply (Hnoise s Hrun Hs). congruence.
  - intros a b s t Hab Ha Hb i Hs Ht. apply Hab.
    apply (segment_label_position labels timestamps segs a b s t Hrun Ha Hb).
    apply (Hmem s i Hrun) in Hs; [|by eapply list_elem_of_lookup_2].
    apply (Hmem t i Hrun) in Ht; [|by eapply list_elem_of_lookup_2].
    congruence.
  - intros i. split.
    + intros (s & Hs & Hi). exists (seg_label s).
      split; [by apply (Hmem s i Hrun Hs) | by apply Hnoise].
    + intros (k & Hi & Hk).
      destruct (Hcover i k Hi Hk) as (a & s & Ha & _ & Hin).
      exists s. split; [by eapply list_elem_of_lookup_2 | done].
Qed.

Lemma segments_partition_witness :
  ∃ segs, segments interleaved_labels split_timestamps = Ok segs ∧
    (∀ i k, interleaved_labels !! i = Some k → k ≠ noise →
       ∃ a s, segs !! a = Some s ∧ i ∈ frame_indices s ∧
              ∀ b t, segs !! b = Some t → i ∈ frame_indices t → b = a) ∧
    (∀ s i, s ∈ segs → i ∈ frame_indices s →
       interleaved_labels !! i ≠ Some noise) ∧
    (∀ a b s t, a ≠ b → segs !! a = Some s → segs !! b = Some t →
       ∀ i, i ∈ frame_indices s → i ∉ frame_indices t) ∧
    (∀ i, (∃ s, s ∈ segs ∧ i ∈ frame_indices s) ↔
          (∃ k, interleaved_labels !! i = Some k ∧ k ≠ noise)).
Proof.
  apply (segments_partition interleaved_labels split_timestamps).
  vm_compute. lia.
Defined.

(** C4 as worded fails: the frame-index ranges of two Segments overlap
    when the frames of their labels interleave.  For the labels [0; 1; 0]
    the Segment of label 0 holds the frames 0 and 2, so that its range
    from 0 to 2 encloses frame 1, the only frame of the Segment of
    label 1. *)
Lemma interleaved_ranges_overlap :
  segments interleaved_labels split_timestamps = Ok interleaved_segments ∧
  in_index_range (MkSegment 0 0 2 [0; 2]) 1 ∧
  in_index_range (MkSegment 1 1 1 [1]) 1 ∧
  ¬ index_ranges_disjoint interleaved_labels split_timestamps.
Proof.
  assert (in_index_range (MkSegment 0 0 2 [0; 2]) 1) as Hfirst.
  { exists 0, 2. split_and!; [done | done | lia | lia]. }
  assert (in_index_range (MkSegment 1 1 1 [1]) 1) as Hsecond.
  { exists 1, 1. split_and!; [done | done | lia | lia]. }
  split; [vm_compute; reflexivity|]. split; [done|]. split; [done|].
  intros Hclaim.
  assert (segments interleaved_labels split_timestamps
          = Ok interleaved_segments) as Hrun by (vm_compute; reflexivity).
  apply (Hclaim interleaved_segments Hrun 0 1
           (MkSegment 0 0 2 [0; 2]) (MkSegment 1 1 1 [1])
           ltac:(lia) eq_refl eq_refl 1 Hfirst Hsecond).
Qed.

(** C7.  With non-decreasing timestamps, the emitted Segments are in
    ascending order of start timestamp: each Segment starts no later than
    every Segment emitted after it. *)
Theorem segments_ascending (labels : list Z) (timestamps : list float) :
  nondecreasing timestamps →
  length labels ≤ length timestamps →
  ∃ segs, segments labels timestamps = Ok segs ∧
    StronglySorted (λ s t, tle (start_time s) (start_time t)) segs.
Proof.
  intros Hmono Hlen.
  destruct (segments_Ok labels timestamps Hlen) as [segs Hrun].
  exists segs. split; [done|].
  destruct (segments_inv labels timestamps segs Hrun)
    as (_ & _ & Hsegs & Hsort).
  apply (StronglySorted_impl_elem starts_before); [|done].
  intros s t Hs Ht (i & j & Hi & Hj & Hij).
  destruct (Hsegs s Hs) as (_ & i' & _ & Hi' & _ & Hti & _).
  destruct (Hsegs t Ht) as (_ & j' & _ & Hj' & _ & Htj & _).
  simplify_eq. apply (Hmono i j); [lia | done | done].
Qed.

Lemma segments_ascending_witness :
  ∃ segs, segments interleaved_labels split_timestamps = Ok segs ∧
    StronglySorted (λ s t, tle (start_time s) (start_time t)) segs.
Proof.
  apply (segments_ascending interleaved_labels split_timestamps).
  - apply nondecreasingb_correct. vm_compute. reflexivity.
  - vm_compute. lia.
Defined.

(** C10.  The frame indices of every emitted Segment are strictly
    increasing; its start timestamp is the timestamp of its first frame
    index and its end timestamp that of its last one; and with
    non-decreasing timestamps the start is at most the end. *)
Theorem segment_indices_increasing (labels : list Z)
    (timestamps : list float) :
  length labels ≤ length timestamps →
  ∃ segs, segments labels timestamps = Ok segs ∧
    ∀ s, s ∈ segs →
      StronglySorted lt (frame_indices s) ∧
      (∃ i j, head (frame_indices s) = Some i ∧
              last (frame_indices s) = Some j ∧
              timestamps !! i = Some (start_time s) ∧
              timestamps !! j = Some (end_time s)) ∧
      (nondecreasing timestamps → tle (start_time s) (end_time s)).
Proof.
  intros Hlen. destruct (segments_Ok labels timestamps Hlen) as [segs Hrun].
  exists segs. split; [done|]. intros s Hs.
  destruct (segments_inv labels timestamps segs Hrun) as (_ & _ & Hsegs & _).
  destruct (Hsegs s Hs) as (Hidx & i & j & Hi & Hj & Hti & Htj).
  assert (StronglySorted lt (frame_indices s)) as Hsorted.
  { rewrite Hidx. apply indices_of_sorted. }
  split_and!; [done | by exists i, j |]. intros Hmono.
  apply (Hmono i j); [|done|done].
  by apply (sorted_head_le_last (frame_indices s)).
Qed.

Lemma segment_indices_increasing_witness :
  ∃ segs, segments interleaved_labels split_timestamps = Ok segs ∧
    ∀ s, s ∈ segs →
      StronglySorted lt (frame_indices s) ∧
      (∃ i j, head (frame_indices s) = Some i ∧
              last (frame_indices s) = Some j ∧
              split_timestamps !! i = Some (start_time s) ∧
              split_timestamps !! j = Some (end_time s)) ∧
      tle (start_time s) (end_time s).
Proof.
  destruct (segment_indices_increasing interleaved_labels split_timestamps)
    as (segs & Hrun & Hsegs).
  - vm_compute. lia.
  - exists segs. split; [exact Hrun|]. intros s Hs.
    destruct (Hsegs s Hs) as (Hsorted & Hties & Htimes).
    split_and!; [exact Hsorted | exact Hties |].
    apply Htimes, nondecreasingb_correct. vm_compute. reflexivity.
Defined.

(** ** The reported cluster count *)

Lemma distinct_clusters_difference (labels : list Z) :
  (list_to_set (filter (λ l, l ≠ noise) labels) : gset Z) =
  list_to_set labels ∖ {[noise]}.
Proof.
  apply set_eq. intros x.
  rewrite elem_of_difference, !elem_of_list_to_set, list_elem_of_filter.
  rewrite elem_of_singleton. tauto.
Qed.

(** Line 186 announces the number of distinct non-noise labels when a
    noise label is present, and one less when there is none. *)
Lemma cluster_count_spec (labels : list Z) :
  cluster_count labels =
  (distinct_clusters labels - (if decide (noise ∈ labels) then 0 else 1))%Z.
Proof.
  unfold cluster_count, distinct_clusters.
  rewrite distinct_clusters_difference.
  destruct (decide (noise ∈ labels)) as [Hin|Hin].
  - rewrite size_difference.
    + rewrite size_singleton.
      assert (size (list_to_set labels : gset Z) ≠ 0) as Hpos.
      { intros H0. apply size_empty_inv in H0.
        assert (noise ∈ (list_to_set labels : gset Z)) as Hn
          by (by apply elem_of_list_to_set).
        rewrite (H0 noise) in Hn. by apply not_elem_of_empty in Hn. }
      lia.
    + apply singleton_subseteq_l. by apply elem_of_list_to_set.
  - assert ((list_to_set labels : gset Z) ∖ {[noise]} = list_to_set labels)
      as ->; [|done].
    apply set_eq. intros x.
    rewrite elem_of_difference, elem_of_list_to_set, elem_of_singleton.
    split; [tauto|]. intros Hx. split; [done|]. by intros ->.
Qed.

(** C2 at a label array without noise: two clusters of 24 frames are
    announced as one cluster. *)
Theorem cluster_count_without_noise :
  (noise ∉ two_clusters) ∧
  cluster_count two_clusters = 1%Z ∧
  distinct_clusters two_clusters = 2%Z.
Proof.
  split; [|split; vm_compute; reflexivity].
  unfold two_clusters. rewrite elem_of_app. intros [H|H];
    apply elem_of_replicate in H as [H _]; discriminate.
Qed.

(** ** Ingestion *)

Lemma store_hits_set (batch_id : Z) (hits : list hit)
    (d : Dict.t (list (Z * float))) :
  store_hits batch_id hits d = Dict.set batch_id (tuples hits) d.
Proof.
  unfold store_hits.
  assert (∀ acc d0, Dict.get batch_id d0 = Some acc →
            fold_left (λ d r, dist_append batch_id (hit_id r, hit_distance r) d)
                      hits d0
            = Dict.set batch_id (acc ++ tuples hits) d0) as Hgen.
  { induction hits as [|h hits IH]; intros acc d0 Hacc; simpl.
    - rewrite app_nil_r. destruct (DictFacts.set_present batch_id acc acc d0 Hacc)
        as (d1 & d2 & Hd & ->). done.
    - unfold dist_append at 2. rewrite Hacc.
      rewrite (IH (acc ++ [(hit_id h, hit_distance h)])).
      + rewrite dict_set_set. by rewrite <-app_assoc.
      + apply DictFacts.get_set_eq. }
  rewrite (Hgen [] (Dict.set batch_id [] d)).
  - by rewrite dict_set_set.
  - apply DictFacts.get_set_eq.
Qed.

Lemma store_batch_from (res : list (list hit)) (batch_ids : list Z)
    (n : nat) (d : Dict.t (list (Z * float))) :
  n + length batch_ids ≤ length res →
  foldM (λ d '(i, batch_id),
           hits ← subscript IndexError (res !! i);
           Ok (store_hits batch_id hits d))
        (imap (λ i x, (n + i, x)) batch_ids) d
  = Ok (fold_left store_query (zip batch_ids (drop n res)) d).
Proof.
  revert n d. induction batch_ids as [|x l IH]; intros n d Hlen; [done|].
  simpl in Hlen. destruct (lookup_lt_is_Some_2 res n) as [hits Hhits]; [lia|].
  rewrite (drop_S res hits n Hhits). rewrite imap_cons. simpl.
  rewrite Nat.add_0_r, Hhits. simpl. rewrite store_hits_set.
  rewrite <-(IH (S n)) by lia. f_equal. apply imap_ext.
  intros i y _. simpl. f_equal. lia.
Qed.

Lemma store_batch_Ok (batch_ids : list Z) (res : list (list hit))
    (d : Dict.t (list (Z * float))) :
  length batch_ids ≤ length res →
  store_batch batch_ids res d
  = Ok (fold_left store_query (zip batch_ids res) d).
Proof.
  intros Hlen. exact (store_batch_from res batch_ids 0 d Hlen).
Qed.

Lemma queries_cons (r : round) (rounds : list round) :
  queries (r :: rounds) =
  if decide (length (batch r) = 0) then []
  else zip (entity_id <$> batch r) (results r) ++ queries rounds.
Proof. unfold queries. simpl. by case_decide. Qed.

Lemma population_cons (r : round) (rounds : list round) :
  population (r :: rounds) =
  if decide (length (batch r) = 0) then []
  else (entity_id <$> batch r) ++ population rounds.
Proof. unfold population. simpl. by case_decide. Qed.

Lemma population_nil_queries (rounds : list round) :
  population rounds = [] → queries rounds = [].
Proof.
  destruct rounds as [|r rounds]; [done|].
  rewrite population_cons, queries_cons. case_decide as Hz; [done|].
  intros Hnil. apply app_eq_nil in Hnil as [Hnil _].
  apply fmap_nil_inv in Hnil. by rewrite Hnil in Hz.
Qed.

Lemma ingest_loop_Ok (rounds : list round) (st : ingested) :
  Forall answered (active rounds) →
  ∃ st', ingest_loop rounds st = Ok st' ∧
         ids st' = ids st ++ population rounds ∧
         dist st' = fold_left store_query (queries rounds) (dist st).
Proof.
  revert st. induction rounds as [|r rounds IH]; intros st Hans.
  - exists st. by rewrite app_nil_r.
  - rewrite queries_cons, population_cons. simpl in *.
    destruct (decide (length (batch r) = 0)) as [Hz|Hz].
    + exists st. by rewrite app_nil_r.
    + apply Forall_cons in Hans as [Hr Hans]. unfold answered in Hr.
      rewrite store_batch_Ok by (by rewrite length_fmap). simpl.
      destruct (IH {| ids := ids st ++ (entity_id <$> batch r);
                      dist := fold_left store_query
                                (zip (entity_id <$> batch r) (results r))
                                (dist st);
                      embeddings := embeddings st
                                    ++ (entity_embedding <$> batch r) |} Hans)
        as (st' & Hrun & Hids & Hdist).
      exists st'. split; [done|]. simpl in Hids, Hdist. split.
      * by rewrite Hids, app_assoc.
      * by rewrite Hdist, fold_left_app.
Qed.

Lemma last_answer_snoc (id : Z) (q : Z * list hit)
    (qs : list (Z * list hit)) :
  last_answer id (qs ++ [q]) =
  if decide (q.1 = id) then Some q.2 else last_answer id qs.
Proof.
  unfold last_answer. rewrite filter_app, filter_cons, filter_nil.
  destruct (decide (q.1 = id)) as [Hq|Hq].
  - by rewrite last_snoc.
  - by rewrite app_nil_r.
Qed.

Lemma stored_lookup (id : Z) (qs : list (Z * list hit))
    (d : Dict.t (list (Z * float))) :
  Dict.get id (fold_left store_query qs d) =
  match last_answer id qs with
  | Some hits => Some (tuples hits)
  | None => Dict.get id d
  end.
Proof.
  induction qs as [|q qs IH] using rev_ind; [done|].
  rewrite fold_left_app, last_answer_snoc. simpl. unfold store_query at 1.
  destruct (decide (q.1 = id)) as [<-|Hne].
  - apply DictFacts.get_set_eq.
  - by rewrite DictFacts.get_set_ne.
Qed.

Lemma stored_wf (qs : list (Z * list hit)) (d : Dict.t (list (Z * float))) :
  Dict.wf d → Dict.wf (fold_left store_query qs d).
Proof.
  revert d. induction qs as [|q qs IH]; intros d Hwf; [done|].
  simpl. apply IH. by apply DictFacts.wf_set.
Qed.

(** C5 (amended).  Ingestion raises neither on an id handed out by
    several batches nor on an empty population.  Whenever the search
    answered every query, it returns: the population lists the ids in the
    order handed out, once per appearance; [dist] has each of them as a
    key once and maps it to the hits of the LAST query made for it; with
    no item, the population and [dist] are empty. *)
Theorem ingest_accepts (rounds : list round) :
  Forall answered (active rounds) →
  ∃ st, ingest rounds = Ok st ∧
        ids st = population rounds ∧
        Dict.wf (dist st) ∧
        (∀ id, Dict.get id (dist st)
               = tuples <$> last_answer id (queries rounds)) ∧
        (population rounds = [] → ids st = [] ∧ dist st = Dict.empty).
Proof.
  intros Hans. unfold ingest.
  destruct (ingest_loop_Ok rounds
              {| ids := []; dist := Dict.empty; embeddings := [] |} Hans)
    as (st & Hrun & Hids & Hdist).
  simpl in Hids, Hdist. exists st. split_and!; [done | done | | |].
  - rewrite Hdist. apply stored_wf. constructor.
  - intros id. rewrite Hdist, stored_lookup.
    by destruct (last_answer id (queries rounds)).
  - intros Hp. by rewrite Hids, Hdist, (population_nil_queries rounds), Hp.
Qed.

Lemma ingest_accepts_witness :
  ∃ st, ingest repeated_rounds = Ok st ∧
        ids st = population repeated_rounds ∧
        Dict.wf (dist st) ∧
        (∀ id, Dict.get id (dist st)
               = tuples <$> last_answer id (queries repeated_rounds)) ∧
        (population repeated_rounds = [] →
         ids st = [] ∧ dist st = Dict.empty).
Proof.
  apply (ingest_accepts repeated_rounds).
  repeat constructor.
Defined.

(** C5 as worded fails on both counts: entity 7 handed out twice is
    ingested, recorded twice in the population and left with the hits of
    the second query only; and zero items are ingested into an empty
    population.  Neither raises. *)
Lemma ingest_repeated_or_empty :
  ingest repeated_rounds =
    Ok {| ids := [7; 7]%Z;
          dist := [(7%Z, [(9%Z, 0.25%float)])];
          embeddings := [[]; []] |} ∧
  ingest [] = Ok {| ids := []; dist := Dict.empty; embeddings := [] |} ∧
  ¬ ingest_rejects repeated_rounds ∧
  ¬ ingest_rejects [].
Proof.
  split; [vm_compute; reflexivity|]. split; [reflexivity|]. split.
  - intros Hclaim. destruct Hclaim as [e He]; [|discriminate He].
    left. exists 0, 1, (Round [Entity 7 []] [[Hit 8 0.5]]),
      (Round [Entity 7 []] [[Hit 9 0.25]]), 7%Z.
    split_and!; [done | done | done | left | left].
  - intros Hclaim. destruct Hclaim as [e He]; [by right | discriminate He].
Qed.

(** ** The empty input *)

(** With zero items the code of the repository raises nothing: ingestion
    yields the empty population and mapping, the builder the 0×0 matrix,
    and an empty label array gives no Segment.  Between the two, [cluster]
    hands the 0×0 matrix to HDBSCAN: it returns what HDBSCAN and
    [np.array] let it return, and raises what they raise. *)
Example empty_stages {ndarray : Type}
    (fit_predict : nat → nat → matrix → result (list Z))
    (np_array : list (list float) → result ndarray) :
  ingest [] = Ok {| ids := []; dist := Dict.empty; embeddings := [] |} ∧
  build_matrix [] Dict.empty = Ok [] ∧
  cluster fit_predict np_array 3 24 [] =
    (labels ← fit_predict 3 24 [];
     arr ← np_array [];
     Ok (Clustered [] labels (cluster_count labels) arr)) ∧
  segments [] [] = Ok [].
Proof. by split_and!. Qed.

(** ** Determinism *)

(** Two square matrices with the same entries are the same matrix. *)
Lemma matrix_ext (n : nat) (m m' : matrix) :
  square n m → square n m' →
  (∀ i j, mget m i j = mget m' i j) → m = m'.
Proof.
  intros [Hlen Hrows] [Hlen' Hrows'] Hget. apply list_eq. intros i.
  rewrite Forall_lookup in Hrows, Hrows'.
  destruct (m !! i) as [row|] eqn:Hrow, (m' !! i) as [row'|] eqn:Hrow'.
  - f_equal. apply list_eq. intros j. specialize (Hget i j).
    unfold mget in Hget. by rewrite Hrow, Hrow' in Hget.
  - apply lookup_lt_Some in Hrow. apply lookup_ge_None in Hrow'. lia.
  - apply lookup_ge_None in Hrow. apply lookup_lt_Some in Hrow'. lia.
  - done.
Qed.

(** A position is either the index of an id or the index of none. *)
Lemma addressed_dec (ids : list Z) (i : nat) :
  (∃ a, make_ids2index ids !! a = Some i) ∨
  (∀ x, make_ids2index ids !! x ≠ Some i).
Proof.
  destruct (ids !! i) as [a|] eqn:Hi.
  - destruct (decide (make_ids2index ids !! a = Some i)) as [Ha|Ha];
      [left; by exists a|].
    right. intros x Hx. pose proof (ids2index_sound _ _ _ Hx) as Hxi.
    congruence.
  - right. intros x Hx. apply ids2index_sound in Hx. congruence.
Qed.

Lemma expected_entry_ext (dist dist' : Dict.t (list (Z * float))) (a b : Z) :
  (∀ k, Dict.get k dist = Dict.get k dist') →
  expected_entry dist a b = expected_entry dist' a b.
Proof. intros Hget. unfold expected_entry. by rewrite Hget. Qed.

(** The outcome of the build depends on the mapping only, not on the order
    in which the dict holds its keys. *)
Lemma build_matrix_ext (ids : list Z) (dist dist' : Dict.t (list (Z * float))) :
  Dict.wf dist → Dict.wf dist' →
  (∀ k, Dict.get k dist = Dict.get k dist') →
  build_matrix ids dist = build_matrix ids dist'.
Proof.
  intros Hwf Hwf' Hget.
  pose proof (build_matrix_square ids dist) as Hsq.
  pose proof (build_matrix_square ids dist') as Hsq'.
  pose proof (build_matrix_lookup ids dist) as Hlook.
  pose proof (build_matrix_lookup ids dist') as Hlook'.
  unfold build_matrix, fill_matrix in *.
  set (m0 := full (length ids) (length ids) infinity) in *.
  destruct (fill_keys_cases ids dist (Dict.keys dist) m0)
    as [(m & Hm & Hall)|(Hraise & k & l & h & Hl & Hh & Hbad)];
    [done | apply square_full | |];
  destruct (fill_keys_cases ids dist' (Dict.keys dist') m0)
    as [(m' & Hm' & Hall')|(Hraise' & k' & l' & h' & Hl' & Hh' & Hbad')];
    try done; try apply square_full.
  - rewrite Hm, Hm'. f_equal.
    apply (matrix_ext (length ids)); [by apply Hsq | by apply Hsq' |].
    intros i j.
    destruct (addressed_dec ids i) as [[a Ha]|Hi];
      [destruct (addressed_dec ids j) as [[b Hb]|Hj]|].
    + rewrite (Hlook m a b i j Hwf Hm Ha Hb).
      rewrite (Hlook' m' a b i j Hwf' Hm' Ha Hb).
      f_equal. by apply expected_entry_ext.
    + rewrite (fill_keys_outside ids dist _ _ m i j Hm) by (by right).
      by rewrite (fill_keys_outside ids dist' _ _ m' i j Hm') by (by right).
    + rewrite (fill_keys_outside ids dist _ _ m i j Hm) by (by left).
      by rewrite (fill_keys_outside ids dist' _ _ m' i j Hm') by (by left).
  - exfalso. rewrite <-Hget in Hl'.
    assert (k' ∈ ids ∧ h'.1 ∈ ids) as [? ?]; [|tauto].
    apply (Hall k' l' h'); [|done|done].
    apply DictFacts.get_is_Some. eauto.
  - exfalso. rewrite Hget in Hl.
    assert (k ∈ ids ∧ h.1 ∈ ids) as [? ?]; [|tauto].
    apply (Hall' k l h); [|done|done].
    apply DictFacts.get_is_Some. eauto.
  - by rewrite Hraise, Hraise'.
Qed.

Lemma make_segment_agree (timestamps timestamps' : list float) (label : Z)
    (idxs : list nat) :
  (∀ i, i ∈ idxs → timestamps !! i = timestamps' !! i) →
  make_segment timestamps label idxs = make_segment timestamps' label idxs.
Proof.
  intros Hagree. unfold make_segment.
  destruct (head idxs) as [i|] eqn:Hi; simpl; [|done].
  rewrite (Hagree i) by (by apply head_Some_elem_of).
  destruct (timestamps' !! i) as [t|]; simpl; [|done].
  destruct (last idxs) as [j|] eqn:Hj; simpl; [|done].
  by rewrite (Hagree j) by (by apply last_Some_elem_of).
Qed.

Lemma emit_segments_agree (timestamps timestamps' : list float)
    (items : list (Z * list nat)) :
  Forall (λ p, ∀ i, i ∈ p.2 → timestamps !! i = timestamps' !! i) items →
  emit_segments timestamps items = emit_segments timestamps' items.
Proof.
  induction 1 as [|[label idxs] items Hagree _ IH]; [done|]. simpl.
  case_decide; [done|].
  by rewrite (make_segment_agree timestamps timestamps' label idxs), IH.
Qed.

(** The outcome of the reconstruction depends on the timestamps of the
    labelled positions only. *)
Lemma segments_agree (labels : list Z) (timestamps timestamps' : list float) :
  (∀ i, i < length labels → timestamps !! i = timestamps' !! i) →
  segments labels timestamps = segments labels timestamps'.
Proof.
  intros Hagree. apply emit_segments_agree, Forall_forall.
  intros [k idxs] Hin i Hi. simpl in Hi.
  pose proof (group_frames_grouped labels) as (Hwf & _ & Hidx & _).
  apply (DictFacts.elem_of_get _ _ _ Hwf) in Hin.
  rewrite (Hidx k idxs Hin) in Hi.
  apply elem_of_indices_of, lookup_lt_Some in Hi. by apply Hagree.
Qed.

(** C8.  Two runs of the Distance Matrix Builder on the same population
    and the same edges return the same outcome (the same matrix, or the
    same exception), and so do two runs of the Segment Reconstructor on the
    same labels and timestamps.  The edges are the same as soon as the two
    dicts map every id to the same neighbour list, in whatever order they
    hold their keys; the timestamps are the same as soon as they agree at
    every position that has a label.  Identical inputs are the case
    [dist' = dist], [timestamps' = timestamps]. *)
Theorem builder_and_reconstructor_deterministic
    (ids : list Z) (dist dist' : Dict.t (list (Z * float)))
    (labels : list Z) (timestamps timestamps' : list float) :
  Dict.wf dist → Dict.wf dist' →
  (∀ k, Dict.get k dist = Dict.get k dist') →
  (∀ i, i < length labels → timestamps !! i = timestamps' !! i) →
  build_matrix ids dist = build_matrix ids dist' ∧
  segments labels timestamps = segments labels timestamps'.
Proof.
  intros Hwf Hwf' Hget Hagree. split.
  - by apply build_matrix_ext.
  - by apply segments_agree.
Qed.

Lemma builder_and_reconstructor_deterministic_witness :
  build_matrix dup_ids forward_dist = build_matrix dup_ids backward_dist ∧
  segments interleaved_labels split_timestamps
  = segments interleaved_labels longer_timestamps.
Proof.
  apply (builder_and_reconstructor_deterministic
           dup_ids forward_dist backward_dist
           interleaved_labels split_timestamps longer_timestamps).
  - apply (bool_decide_unpack _). vm_compute. exact I.
  - apply (bool_decide_unpack _). vm_compute. exact I.
  - intros k. unfold forward_dist, backward_dist. simpl.
    repeat case_decide; try reflexivity; lia.
  - intros i Hi. simpl in Hi.
    destruct i as [|[|[|i]]]; [reflexivity | reflexivity | reflexivity | lia].
Defined.

(** * Further properties of the code *)

(** ** The index of the population, with repeated ids *)

Lemma ids2index_Some_iff (ids : list Z) (a : Z) (i : nat) :
  make_ids2index ids !! a = Some i ↔
  ids !! i = Some a ∧ ∀ j, i < j → ids !! j ≠ Some a.
Proof.
  revert i. induction ids as [|x ids IH] using rev_ind; intros i.
  - split; [|by intros [? _]].
    unfold make_ids2index. simpl. by rewrite lookup_empty.
  - rewrite make_ids2index_snoc.
    destruct (decide (x = a)) as [->|Hne].
    + rewrite lookup_insert_eq. split.
      * intros [= <-]. split.
        -- by rewrite lookup_app_r, Nat.sub_diag.
        -- intros j Hj. rewrite lookup_ge_None_2; [done|].
           rewrite length_app. simpl. lia.
      * intros [Hi Hlast]. f_equal.
        pose proof (lookup_lt_Some _ _ _ Hi) as Hlt.
        rewrite length_app in Hlt. simpl in Hlt.
        destruct (decide (i = length ids)) as [->|Hi']; [done|].
        destruct (Hlast (length ids)); [lia|].
        by rewrite lookup_app_r, Nat.sub_diag.
    + rewrite lookup_insert_ne by done. rewrite IH. split.
      * intros [Hi Hlast]. split; [by apply lookup_app_l_Some|].
        intros j Hj Hja. apply lookup_app_Some in Hja as [Hja|[_ Hja]].
        -- by apply (Hlast j).
        -- destruct (j - length ids) as [|n]; [|done].
           simpl in Hja. congruence.
      * intros [Hi Hlast].
        apply lookup_app_Some in Hi as [Hi|[_ Hi]].
        -- split; [done|]. intros j Hj Hja. apply (Hlast j Hj).
           by apply lookup_app_l_Some.
        -- destruct (i - length ids) as [|n]; [|done].
           simpl in Hi. congruence.
Qed.

(** X1.  [ids2index] sends an id to the LAST position that holds it (the
    dict comprehension of line 170 overwrites earlier positions), and has
    no entry exactly for the ids outside the population. *)
Theorem ids2index_last_position (ids : list Z) (a : Z) :
  (∀ i, make_ids2index ids !! a = Some i ↔
        ids !! i = Some a ∧ ∀ j, i < j → ids !! j ≠ Some a) ∧
  (make_ids2index ids !! a = None ↔ a ∉ ids).
Proof.
  split; [intros i; apply ids2index_Some_iff|]. split.
  - intros Hnone Hin. apply ids2index_is_Some in Hin as [i Hi]. congruence.
  - intros Hin. destruct (make_ids2index ids !! a) as [i|] eqn:Hi; [|done].
    destruct Hin. apply ids2index_sound in Hi.
    by eapply list_elem_of_lookup_2.
Qed.

(** ** When the matrix build raises *)

(** X2.  The build returns a matrix exactly when every id an edge
    mentions is in the population; otherwise it raises, and what it raises
    is [KeyError] (line 175 never indexes the matrix out of bounds). *)
Theorem build_matrix_raises (ids : list Z)
    (dist : Dict.t (list (Z * float))) :
  ((∃ m, build_matrix ids dist = Ok m) ↔ closed ids dist) ∧
  (∀ e, build_matrix ids dist = Raise e ↔ e = KeyError ∧ ¬ closed ids dist).
Proof.
  unfold build_matrix, fill_matrix.
  destruct (fill_keys_cases ids dist (Dict.keys dist)
              (full (length ids) (length ids) infinity))
    as [(m & Hm & Hall)|(Hraise & k & l & h & Hl & Hh & Hbad)];
    [done | apply square_full | |].
  - assert (closed ids dist) as Hcl.
    { intros a l b d Hl Hbd. apply (Hall a l (b, d)); [|done|done].
      apply DictFacts.get_is_Some. eauto. }
    rewrite Hm. split.
    + split; [done | eauto].
    + intros e. split; [done | tauto].
  - assert (¬ closed ids dist) as Hcl.
    { intros Hcl. destruct h as [b d].
      destruct (Hcl k l b d Hl Hh). simpl in Hbad. tauto. }
    rewrite Hraise. split.
    + split; [by intros [m ?] | done].
    + intros e. split; [by intros [= <-] | by intros [-> _]].
Qed.

(** ** Positions shadowed by a repeated id *)

(** X3.  When an id occurs again later in the population (C5: a repeated
    id is recorded once per appearance), the matrix keeps a row and a
    column for the earlier position and never writes to them: both hold
    the sentinel throughout. *)
Theorem shadowed_position_unreachable (ids : list Z)
    (dist : Dict.t (list (Z * float))) (m : matrix) (a : Z) (i j c : nat) :
  build_matrix ids dist = Ok m →
  ids !! i = Some a → ids !! j = Some a → i < j →
  c < length ids →
  mget m i c = Some infinity ∧ mget m c i = Some infinity.
Proof.
  intros Hm Hi Hj Hij Hc. unfold build_matrix, fill_matrix in Hm.
  assert (∀ x, make_ids2index ids !! x ≠ Some i) as Hout.
  { intros x Hx.
    apply ids2index_Some_iff in Hx as [Hxi Hlast].
    apply (Hlast j Hij). congruence. }
  pose proof (lookup_lt_Some _ _ _ Hi) as Hlt.
  split.
  - rewrite (fill_keys_outside ids dist _ _ m i c Hm) by (by left).
    by apply mget_full.
  - rewrite (fill_keys_outside ids dist _ _ m c i Hm) by (by right).
    by apply mget_full.
Qed.

Lemma shadowed_position_unreachable_witness :
  mget [[infinity; infinity]; [infinity; 0.5%float]] 0 1 = Some infinity ∧
  mget [[infinity; infinity]; [infinity; 0.5%float]] 1 0 = Some infinity.
Proof.
  apply (shadowed_position_unreachable shadow_ids shadow_dist
           [[infinity; infinity]; [infinity; 0.5%float]] 7 0 1 1).
  - vm_compute. reflexivity.
  - reflexivity.
  - reflexivity.
  - lia.
  - vm_compute. lia.
Defined.

(** ** Ingestion followed by the matrix build *)

Lemma build_matrix_Ok_closed (ids : list Z)
    (dist : Dict.t (list (Z * float))) (m : matrix) :
  build_matrix ids dist = Ok m → closed ids dist.
Proof.
  unfold build_matrix, fill_matrix. intros Hm.
  destruct (fill_keys_cases ids dist (Dict.keys dist)
              (full (length ids) (length ids) infinity))
    as [(m' & _ & Hall)|(Hraise & _)]; [done | apply square_full | |].
  - intros a l b d Hl Hbd. apply (Hall a l (b, d)); [|done|done].
    apply DictFacts.get_is_Some. eauto.
  - congruence.
Qed.

Lemma queries_fst (rounds : list round) :
  Forall answered (active rounds) → (queries rounds).*1 = population rounds.
Proof.
  induction rounds as [|r rounds IH]; intros Hans; [done|].
  rewrite queries_cons, population_cons. simpl in Hans.
  case_decide; [done|]. apply Forall_cons in Hans as [Hr Hans].
  rewrite fmap_app, (IH Hans). f_equal.
  apply fst_zip. by rewrite length_fmap.
Qed.

Lemma last_answer_Some_elem_of (id : Z) (hits : list hit)
    (qs : list (Z * list hit)) :
  last_answer id qs = Some hits → (id, hits) ∈ qs.
Proof.
  unfold last_answer. destruct (last _) as [[id' hits']|] eqn:E; [|done].
  intros [= <-]. apply last_Some_elem_of in E.
  apply list_elem_of_filter in E as [Hid Hin]. simpl in Hid. by subst.
Qed.

(** X4.  Once ingestion has returned, the matrix build can only fail on a
    stored hit that names an id outside the population: every source id
    has its index, and hits replaced by a later query for the same id no
    longer count. *)
Theorem ingested_matrix_built (rounds : list round) :
  Forall answered (active rounds) →
  ∃ st, ingest rounds = Ok st ∧
    ((∃ m, build_matrix (ids st) (dist st) = Ok m) ↔
     (∀ id hits h, last_answer id (queries rounds) = Some hits →
                   h ∈ hits → hit_id h ∈ population rounds)).
Proof.
  intros Hans. unfold ingest.
  destruct (ingest_loop_Ok rounds
              {| ids := []; dist := Dict.empty; embeddings := [] |} Hans)
    as (st & Hrun & Hids & Hdist).
  simpl in Hids, Hdist. exists st. split; [done|].
  assert (∀ id, Dict.get id (dist st)
                = tuples <$> last_answer id (queries rounds)) as Hget.
  { intros id. rewrite Hdist, stored_lookup.
    by destruct (last_answer id (queries rounds)). }
  rewrite Hids. split.
  - intros [m Hm] id hits h Hlast Hh.
    apply build_matrix_Ok_closed in Hm.
    apply (Hm id (tuples hits) (hit_id h) (hit_distance h)).
    + by rewrite Hget, Hlast.
    + apply list_elem_of_fmap. by exists h.
  - intros Hhits. apply build_matrix_Ok. intros a l b d Hl Hbd.
    rewrite Hget in Hl.
    destruct (last_answer a (queries rounds)) as [hits|] eqn:Hlast; [|done].
    injection Hl as <-. split.
    + rewrite <-(queries_fst rounds Hans).
      apply list_elem_of_fmap. exists (a, hits).
      split; [done | by apply last_answer_Some_elem_of].
    + apply list_elem_of_fmap in Hbd as (h & [= -> _] & Hh).
      by apply (Hhits a hits h).
Qed.

Lemma ingested_matrix_built_witness :
  ∃ st, ingest pair_rounds = Ok st ∧
    ((∃ m, build_matrix (ids st) (dist st) = Ok m) ↔
     (∀ id hits h, last_answer id (queries pair_rounds) = Some hits →
                   h ∈ hits → hit_id h ∈ population pair_rounds)).
Proof.
  apply (ingested_matrix_built pair_rounds). repeat constructor.
Defined.

(** ** When ingestion raises *)

Lemma store_batch_from_Raise (res : list (list hit)) (batch_ids : list Z)
    (n : nat) (d : Dict.t (list (Z * float))) :
  n ≤ length res → length res < n + length batch_ids →
  foldM (λ d '(i, batch_id),
           hits ← subscript IndexError (res !! i);
           Ok (store_hits batch_id hits d))
        (imap (λ i x, (n + i, x)) batch_ids) d
  = Raise IndexError.
Proof.
  revert n d. induction batch_ids as [|x l IH]; intros n d Hn Hlen.
  - simpl in Hlen. lia.
  - rewrite imap_cons. simpl. rewrite Nat.add_0_r.
    destruct (res !! n) as [hits|] eqn:Hhits; simpl.
    + apply lookup_lt_Some in Hhits. simpl in Hlen.
      rewrite <-(IH (S n) (store_hits x hits d)) by lia.
      f_equal. apply imap_ext. intros i y _. simpl. f_equal. lia.
    + done.
Qed.

Lemma ingest_loop_Raise (rounds : list round) (st : ingested) :
  Exists unanswered (active rounds) →
  ingest_loop rounds st = Raise IndexError.
Proof.
  revert st. induction rounds as [|r rounds IH]; intros st Hex; simpl in *.
  - by apply Exists_nil in Hex.
  - destruct (decide (length (batch r) = 0)) as [Hz|Hz].
    + by apply Exists_nil in Hex.
    + destruct (le_lt_dec (length (batch r)) (length (results r)))
        as [Hans|Hun].
      * rewrite store_batch_Ok by (by rewrite length_fmap). simpl.
        apply IH. apply Exists_cons in Hex as [Hr|Hex]; [|done].
        unfold unanswered in Hr. lia.
      * assert (store_batch (entity_id <$> batch r) (results r) (dist st)
                = Raise IndexError) as ->; [|done].
        apply (store_batch_from_Raise (results r) _ 0); [lia|].
        rewrite length_fmap. simpl. lia.
Qed.

(** X5.  Ingestion raises exactly when the search returned fewer result
    lists than queries for some round it goes through (line 162 reads
    [results[i]]), and what it raises is [IndexError]; in every other case
    it returns. *)
Theorem ingest_raises (rounds : list round) :
  (∀ e, ingest rounds = Raise e ↔
        e = IndexError ∧ Exists unanswered (active rounds)) ∧
  ((∃ st, ingest rounds = Ok st) ↔ Forall answered (active rounds)).
Proof.
  destruct (Forall_Exists_dec answered unanswered
              (λ r, le_lt_dec (length (batch r)) (length (results r)))
              (active rounds)) as [Hall|Hex].
  - destruct (ingest_loop_Ok rounds
                {| ids := []; dist := Dict.empty; embeddings := [] |} Hall)
      as (st & Hrun & _).
    unfold ingest. rewrite Hrun. split.
    + intros e. split; [done|]. intros [_ Hex].
      apply Exists_exists in Hex as (r & Hr & Hun).
      rewrite Forall_forall in Hall. specialize (Hall r Hr).
      unfold answered, unanswered in *. lia.
    + split; [done | eauto].
  - unfold ingest. rewrite (ingest_loop_Raise rounds _ Hex). split.
    + intros e. split; [by intros [= <-] | by intros [-> _]].
    + split; [by intros [st ?]|]. intros Hall.
      apply Exists_exists in Hex as (r & Hr & Hun).
      rewrite Forall_forall in Hall. specialize (Hall r Hr).
      unfold answered, unanswered in *. lia.
Qed.

Example ingest_short_answer : ingest short_rounds = Raise IndexError.
Proof. vm_compute. reflexivity. Qed.

(** ** More on the segments *)

(** The segment written for a label other than noise. *)
Lemma segment_of_label (labels : list Z) (timestamps : list float)
    (segs : list Segment) (k : Z) :
  segments labels timestamps = Ok segs → k ∈ labels → k ≠ noise →
  ∃ s i j, s ∈ segs ∧ seg_label s = k ∧
           frame_indices s = indices_of k labels ∧
           head (indices_of k labels) = Some i ∧
           last (indices_of k labels) = Some j ∧
           timestamps !! i = Some (start_time s) ∧
           timestamps !! j = Some (end_time s).
Proof.
  intros Hrun Hk Hn.
  destruct (segments_inv labels timestamps segs Hrun)
    as (_ & Hkeys & Hsegs & _).
  assert (k ∈ seg_label <$> segs) as Hin by (by apply Hkeys).
  apply list_elem_of_fmap in Hin as (s & -> & Hs).
  destruct (Hsegs s Hs) as (Hidx & i & j & Hi & Hj & Hti & Htj).
  exists s, i, j. rewrite Hidx in Hi, Hj. by split_and!.
Qed.

(** X6.  As many segments are written as the label array has distinct
    labels other than noise; the count printed at line 186 is that number
    when a noise label occurs and one less when none does. *)
Theorem segments_count (labels : list Z) (timestamps : list float)
    (segs : list Segment) :
  segments labels timestamps = Ok segs →
  Z.of_nat (length segs) = distinct_clusters labels ∧
  cluster_count labels =
    (Z.of_nat (length segs) - (if decide (noise ∈ labels) then 0 else 1))%Z.
Proof.
  intros Hrun.
  destruct (segments_inv labels timestamps segs Hrun) as (Hnd & Hkeys & _).
  assert (Z.of_nat (length segs) = distinct_clusters labels) as Hlen.
  { unfold distinct_clusters. f_equal.
    rewrite <-(length_fmap seg_label segs).
    rewrite <-(size_list_to_set (C := gset Z) _ Hnd). f_equal.
    apply set_eq. intros k.
    rewrite !elem_of_list_to_set, Hkeys, list_elem_of_filter. tauto. }
  split; [done|]. rewrite Hlen. apply cluster_count_spec.
Qed.

Lemma segments_count_witness :
  Z.of_nat (length split_segments) = distinct_clusters split_labels ∧
  cluster_count split_labels =
    (Z.of_nat (length split_segments)
     - (if decide (noise ∈ split_labels) then 0 else 1))%Z.
Proof.
  apply (segments_count split_labels split_timestamps).
  vm_compute. reflexivity.
Defined.

(** X7.  Whatever the timestamps, the segments are written in the order
    in which their labels first occur: each segment starts at the first
    position that carries its label, strictly before the first position of
    every segment written after it. *)
Theorem segments_in_order_of_first_frame (labels : list Z)
    (timestamps : list float) (segs : list Segment) :
  segments labels timestamps = Ok segs →
  StronglySorted starts_before segs ∧
  ∀ s i, s ∈ segs → head (frame_indices s) = Some i →
    labels !! i = Some (seg_label s) ∧
    ∀ j, j < i → labels !! j ≠ Some (seg_label s).
Proof.
  intros Hrun.
  destruct (segments_inv labels timestamps segs Hrun)
    as (_ & _ & Hsegs & Hsort).
  split; [done|]. intros s i Hs Hi.
  destruct (Hsegs s Hs) as [Hidx _]. rewrite Hidx in Hi. split.
  - apply elem_of_indices_of. by apply head_Some_elem_of.
  - intros j Hj Hlab. apply elem_of_indices_of in Hlab.
    pose proof (sorted_head_le _ i j (indices_of_sorted _ _) Hi Hlab). lia.
Qed.

Lemma segments_in_order_of_first_frame_witness :
  StronglySorted starts_before interleaved_segments ∧
  ∀ s i, s ∈ interleaved_segments → head (frame_indices s) = Some i →
    interleaved_labels !! i = Some (seg_label s) ∧
    ∀ j, j < i → interleaved_labels !! j ≠ Some (seg_label s).
Proof.
  apply (segments_in_order_of_first_frame interleaved_labels
           split_timestamps).
  vm_compute. reflexivity.
Defined.

(** X8.  With non-decreasing timestamps, every frame of a segment has
    its timestamp between the segment's start and end time. *)
Theorem segment_frames_within_bounds (labels : list Z)
    (timestamps : list float) (segs : list Segment) (s : Segment)
    (i : nat) :
  nondecreasing timestamps →
  segments labels timestamps = Ok segs →
  s ∈ segs → i ∈ frame_indices s →
  ∃ t, timestamps !! i = Some t ∧
       tle (start_time s) t ∧ tle t (end_time s).
Proof.
  intros Hmono Hrun Hs Hi.
  destruct (segments_inv labels timestamps segs Hrun) as (_ & _ & Hsegs & _).
  destruct (Hsegs s Hs) as (Hidx & a & b & Ha & Hb & Hta & Htb).
  assert (StronglySorted lt (frame_indices s)) as Hsorted.
  { rewrite Hidx. apply indices_of_sorted. }
  pose proof (sorted_head_le _ a i Hsorted Ha Hi) as Hai.
  pose proof (sorted_le_last _ i b Hsorted Hb Hi) as Hib.
  destruct (lookup_lt_is_Some_2 timestamps i) as [t Ht].
  { apply lookup_lt_Some in Htb. lia. }
  exists t. split_and!; [done | by apply (Hmono a i) | by apply (Hmono i b)].
Qed.

Lemma segment_frames_within_bounds_witness :
  ∃ t, split_timestamps !! 2 = Some t ∧ tle 0 t ∧ tle t 2.
Proof.
  apply (segment_frames_within_bounds split_labels split_timestamps
           split_segments (MkSegment 0 0 2 [0; 2]) 2).
  - apply nondecreasingb_correct. vm_compute. reflexivity.
  - vm_compute. reflexivity.
  - left.
  - right. left.
Defined.

(** ** When the reconstruction raises *)

Lemma make_segment_Raise (timestamps : list float) (label : Z)
    (idxs : list nat) (e : exn) :
  make_segment timestamps label idxs = Raise e → e = IndexError.
Proof.
  unfold make_segment.
  destruct (head idxs) as [i|]; simpl; [|congruence].
  destruct (timestamps !! i); simpl; [|congruence].
  destruct (last idxs) as [j|]; simpl; [|congruence].
  destruct (timestamps !! j); simpl; congruence.
Qed.

Lemma emit_segments_Raise (timestamps : list float)
    (items : list (Z * list nat)) (e : exn) :
  emit_segments timestamps items = Raise e → e = IndexError.
Proof.
  induction items as [|[label idxs] items IH]; simpl; [done|].
  case_decide; [done|].
  destruct (make_segment timestamps label idxs) as [s|e'] eqn:Hs; simpl.
  - destruct (emit_segments timestamps items); simpl; [done|].
    intros [= <-]. by apply IH.
  - intros [= <-]. by eapply make_segment_Raise.
Qed.

Lemma emit_segments_Ok_kept (timestamps : list float)
    (items : list (Z * list nat)) :
  Forall (λ p, p.1 ≠ noise →
               p.2 ≠ [] ∧ Forall (λ i, i < length timestamps) p.2) items →
  ∃ segs, emit_segments timestamps items = Ok segs.
Proof.
  induction 1 as [|[label idxs] items Hp _ [segs IH]]; [by exists []|].
  simpl. destruct (decide (label = noise)) as [Hn|Hn]; [by exists segs|].
  destruct (Hp Hn) as [Hne Hall].
  destruct (make_segment_Ok timestamps label idxs Hne Hall) as [s Hs].
  exists (s :: segs). by rewrite Hs, IH.
Qed.

Lemma segments_Ok_noise_tail (labels : list Z) (timestamps : list float) :
  Forall (λ k, k = noise) (drop (length timestamps) labels) →
  ∃ segs, segments labels timestamps = Ok segs.
Proof.
  intros Htail. apply emit_segments_Ok_kept, Forall_forall.
  intros [k idxs] Hin Hk. simpl in *.
  pose proof (group_frames_grouped labels) as Hg.
  pose proof Hg as (Hwf & _ & Hget & _).
  apply (DictFacts.elem_of_get _ _ _ Hwf) in Hin.
  destruct (grouped_nonempty labels _ k idxs Hg Hin) as (i & Hi & _).
  split; [by destruct idxs|].
  rewrite (Hget k idxs Hin). apply Forall_forall. intros j Hj.
  apply elem_of_indices_of in Hj.
  destruct (decide (j < length timestamps)) as [|Hge]; [done|].
  rewrite Forall_lookup in Htail. destruct Hk.
  apply (Htail (j - length timestamps) k).
  rewrite lookup_drop. by replace (length timestamps + (j - length timestamps))
    with j by lia.
Qed.

Lemma segments_Ok_inv_noise_tail (labels : list Z)
    (timestamps : list float) (segs : list Segment) :
  segments labels timestamps = Ok segs →
  Forall (λ k, k = noise) (drop (length timestamps) labels).
Proof.
  intros Hrun. apply Forall_lookup. intros i k Hi.
  rewrite lookup_drop in Hi.
  destruct (decide (k = noise)) as [|Hk]; [done|].
  destruct (segment_of_label labels timestamps segs k Hrun)
    as (s & a & b & _ & _ & _ & _ & Hb & _ & Htb);
    [by eapply list_elem_of_lookup_2 | done |].
  apply elem_of_indices_of in Hi.
  pose proof (sorted_le_last _ _ b (indices_of_sorted k labels) Hb Hi).
  apply lookup_lt_Some in Htb. lia.
Qed.

(** X9.  The reconstruction returns exactly when every position that has
    no timestamp (those from [len(timestamps)] on) is labelled noise: only
    the first and the last position of a non-noise label are looked up in
    [timestamps] (lines 255-256).  Otherwise it raises [IndexError]. *)
Theorem segments_raises (labels : list Z) (timestamps : list float) :
  ((∃ segs, segments labels timestamps = Ok segs) ↔
   Forall (λ k, k = noise) (drop (length timestamps) labels)) ∧
  (∀ e, segments labels timestamps = Raise e ↔
        e = IndexError ∧
        ¬ Forall (λ k, k = noise) (drop (length timestamps) labels)).
Proof.
  split.
  - split; [|apply segments_Ok_noise_tail].
    intros [segs Hrun]. by eapply segments_Ok_inv_noise_tail.
  - intros e. split.
    + intros Hraise. split; [by eapply emit_segments_Raise|].
      intros Htail. apply segments_Ok_noise_tail in Htail as [segs Hrun].
      congruence.
    + intros [-> Htail].
      destruct (segments labels timestamps) as [segs|e] eqn:Hrun.
      * destruct Htail. by eapply segments_Ok_inv_noise_tail.
      * f_equal. by eapply emit_segments_Raise.
Qed.

(** ** Labels that occur in one run *)

Lemma indices_of_app (k : Z) (l1 l2 : list Z) :
  indices_of k (l1 ++ l2) =
  indices_of k l1 ++ (Nat.add (length l1) <$> indices_of k l2).
Proof.
  induction l2 as [|x l2 IH] using rev_ind.
  - rewrite app_nil_r. unfold indices_of at 3. simpl. by rewrite app_nil_r.
  - rewrite app_assoc, !indices_of_snoc, IH, fmap_app, length_app.
    rewrite <-app_assoc. by case_decide.
Qed.

Lemma indices_of_replicate (k : Z) (n : nat) :
  indices_of k (replicate n k) = seq 0 n.
Proof.
  induction n as [|n IH]; [done|].
  rewrite replicate_S_end, indices_of_snoc, IH, length_replicate.
  rewrite decide_True by done. by rewrite seq_S.
Qed.

Lemma indices_of_run (k : Z) (pre post : list Z) (n : nat) :
  k ∉ pre → k ∉ post →
  indices_of k (pre ++ replicate n k ++ post) = seq (length pre) n.
Proof.
  intros Hpre Hpost. apply indices_of_nil in Hpre, Hpost.
  rewrite !indices_of_app, Hpre, Hpost, indices_of_replicate.
  rewrite fmap_nil, app_nil_r. simpl.
  by rewrite fmap_add_seq, Nat.add_0_r.
Qed.

(** X10.  A label other than noise that occurs in a single run of [n]
    consecutive positions gets the segment the specification describes:
    its frame indices are that run, its start time the timestamp of the
    run's first position and its end time that of the run's last one. *)
Theorem single_run_segment (pre post : list Z) (k : Z) (n : nat)
    (timestamps : list float) (segs : list Segment) :
  k ≠ noise → k ∉ pre → k ∉ post →
  segments (pre ++ replicate (S n) k ++ post) timestamps = Ok segs →
  ∃ s, s ∈ segs ∧ seg_label s = k ∧
       frame_indices s = seq (length pre) (S n) ∧
       timestamps !! length pre = Some (start_time s) ∧
       timestamps !! (length pre + n) = Some (end_time s).
Proof.
  intros Hk Hpre Hpost Hrun.
  destruct (segment_of_label _ timestamps segs k Hrun)
    as (s & i & j & Hs & Hlab & Hidx & Hi & Hj & Hti & Htj); [|done|].
  { rewrite !elem_of_app. right. left. left. }
  rewrite (indices_of_run k pre post (S n) Hpre Hpost) in Hidx, Hi, Hj.
  exists s. split_and!; [done | done | done | |].
  - simpl in Hi. by injection Hi as <-.
  - rewrite seq_S, last_snoc in Hj. by injection Hj as <-.
Qed.

Lemma single_run_segment_witness :
  ∃ s, s ∈ [MkSegment 0 0 1 [0; 1]; MkSegment 1 3 4 [3; 4]] ∧
       seg_label s = 1%Z ∧
       frame_indices s = seq (length [0; 0; -1]%Z) 2 ∧
       [0; 1; 2; 3; 4]%float !! length [0; 0; -1]%Z = Some (start_time s) ∧
       [0; 1; 2; 3; 4]%float !! (length [0; 0; -1]%Z + 1)
         = Some (end_time s).
Proof.
  apply (single_run_segment [0; 0; -1]%Z [] 1%Z 1 [0; 1; 2; 3; 4]%float).
  - done.
  - apply (bool_decide_unpack _). vm_compute. exact I.
  - apply not_elem_of_nil.
  - vm_compute. reflexivity.
Defined.

(** ** The frames of all segments together *)

Lemma sum_indices_snoc (labels : list Z) (x : Z) (L : list Z) :
  NoDup L →
  sum_list ((λ k, length (indices_of k (labels ++ [x]))) <$> L) =
  sum_list ((λ k, length (indices_of k labels)) <$> L)
  + (if decide (x ∈ L) then 1 else 0).
Proof.
  induction 1 as [|k L Hk _ IH].
  - rewrite decide_False; [done | apply not_elem_of_nil].
  - rewrite !fmap_cons. simpl. rewrite IH, indices_of_snoc, length_app.
    destruct (decide (x = k)) as [->|Hne]; simpl.
    + rewrite (decide_False (P := k ∈ L)) by done.
      rewrite decide_True by left. lia.
    + destruct (decide (x ∈ L)) as [Hin|Hin].
      * rewrite decide_True by (by right). lia.
      * rewrite decide_False; [lia|]. rewrite not_elem_of_cons. done.
Qed.

Lemma sum_indices (labels : list Z) (L : list Z) :
  NoDup L →
  sum_list ((λ k, length (indices_of k labels)) <$> L) =
  length (filter (λ x, x ∈ L) labels).
Proof.
  intros HL. induction labels as [|x labels IH] using rev_ind.
  - simpl. induction L as [|k L IHL]; [done|].
    apply NoDup_cons in HL as [_ HL]. rewrite fmap_cons. simpl.
    by rewrite IHL.
  - rewrite sum_indices_snoc, IH, filter_app, length_app by done.
    f_equal. rewrite filter_cons, filter_nil. by case_decide.
Qed.

Lemma filter_ext_in {A} (P Q : A → Prop) `{∀ x, Decision (P x)}
    `{∀ x, Decision (Q x)} (l : list A) :
  (∀ x, x ∈ l → P x ↔ Q x) → filter P l = filter Q l.
Proof.
  induction l as [|x l IH]; intros Hext; [done|].
  rewrite !filter_cons, IH by (intros y Hy; apply Hext; by right).
  destruct (decide (P x)) as [HP|HP].
  - rewrite decide_True; [done|]. apply Hext; [left | done].
  - rewrite decide_False; [done|]. intros HQ. apply HP, Hext; [left | done].
Qed.

(** X11.  The segments hold, all together, as many frame indices as there
    are positions labelled other than noise: every clustered frame counts
    once, whatever the number of segments. *)
Theorem segments_total_frames (labels : list Z) (timestamps : list float)
    (segs : list Segment) :
  segments labels timestamps = Ok segs →
  sum_list ((λ s, length (frame_indices s)) <$> segs) =
  length (filter (λ k, k ≠ noise) labels).
Proof.
  intros Hrun.
  destruct (segments_inv labels timestamps segs Hrun)
    as (Hnd & Hkeys & Hsegs & _).
  assert (filter (λ k, k ≠ noise) labels
          = filter (λ k, k ∈ seg_label <$> segs) labels) as ->.
  { apply filter_ext_in. intros k Hk. rewrite Hkeys. tauto. }
  rewrite <-(sum_indices labels _ Hnd), <-list_fmap_compose. f_equal.
  apply list_fmap_ext. intros i s Hs. simpl.
  destruct (Hsegs s) as [-> _]; [by eapply list_elem_of_lookup_2 | done].
Qed.

Lemma segments_total_frames_witness :
  sum_list ((λ s, length (frame_indices s)) <$> split_segments) =
  length (filter (λ k, k ≠ noise) split_labels).
Proof.
  apply (segments_total_frames split_labels split_timestamps).
  vm_compute. reflexivity.
Defined.


(** ** Frame extraction *)

Lemma keep_frame_regular (total_frames : Z) (fps : float)
    (frame_interval : Z) (frame_count : nat) :
  regular total_frames fps frame_interval →
  keep_frame total_frames fps frame_interval frame_count =
  Return (if decide ((Z.of_nat frame_count `mod` frame_interval)%Z = 0%Z)
          then Some (timestamp_of fps frame_count) else None).
Proof.
  intros (Hk & Hfps & Htotal). unfold keep_frame.
  rewrite decide_False by done. case_decide; [|done].
  rewrite Hfps, (decide_False (P := total_frames = 0%Z)) by done.
  by case_decide.
Qed.

Lemma keep_frame_first (total_frames : Z) (fps : float)
    (frame_interval : Z) :
  ¬ regular total_frames fps frame_interval →
  keep_frame total_frames fps frame_interval 0 = Throw ZeroDivisionError.
Proof.
  intros Hirr. unfold keep_frame.
  destruct (decide (frame_interval = 0%Z)) as [|Hk]; [done|].
  rewrite decide_True by (by rewrite Zmod_0_l).
  destruct (PrimFloat.eqb fps 0) eqn:Hfps; [done|].
  rewrite decide_True by done.
  destruct (decide (total_frames = 0%Z)) as [|Ht]; [done|].
  by destruct Hirr.
Qed.

Lemma regular_dec (total_frames : Z) (fps : float) (frame_interval : Z) :
  regular total_frames fps frame_interval ∨
  ¬ regular total_frames fps frame_interval.
Proof.
  unfold regular.
  destruct (decide (frame_interval = 0%Z)); [right; tauto|].
  destruct (PrimFloat.eqb fps 0); [right; intros (_ & ? & _); done|].
  destruct (decide (total_frames = 0%Z)); [right; tauto | left; done].
Qed.

Lemma extract_loop_regular {frame : Type} (total_frames : Z) (fps : float)
    (frame_interval : Z) (video : list frame) (c : nat)
    (fl : list frame) (ts : list float) :
  regular total_frames fps frame_interval →
  let kept := filter (λ p : nat * frame,
                        (Z.of_nat p.1 `mod` frame_interval)%Z = 0%Z)
                     (imap (λ i x, (c + i, x)) video) in
  extract_loop total_frames fps frame_interval video c fl ts =
  Return (fl ++ kept.*2, ts ++ ((λ p, timestamp_of fps p.1) <$> kept)).
Proof.
  intros Hreg. revert c fl ts.
  induction video as [|f video IH]; intros c fl ts; simpl.
  - by rewrite !app_nil_r.
  - rewrite (keep_frame_regular _ _ _ c Hreg), Nat.add_0_r.
    assert (imap ((λ i x, (c + i, x)) ∘ S) video
            = imap (λ i x, (S c + i, x)) video) as ->.
    { apply imap_ext. intros i x _. simpl. f_equal. lia. }
    rewrite filter_cons. simpl.
    destruct (decide ((Z.of_nat c `mod` frame_interval)%Z = 0%Z)).
    + rewrite IH. simpl. by rewrite <-!app_assoc.
    + by rewrite IH.
Qed.

Lemma extract_frames_regular {frame : Type} (total_frames : Z)
    (fps : float) (frame_interval : Z) (video : list frame) :
  regular total_frames fps frame_interval →
  extract_frames total_frames fps frame_interval video =
  Return ((sampled frame_interval video).*2,
          (λ p, timestamp_of fps p.1) <$> sampled frame_interval video).
Proof.
  intros Hreg. unfold extract_frames.
  by rewrite (extract_loop_regular _ _ _ video 0 [] [] Hreg).
Qed.

(** X12.  [extract_frames] raises [ZeroDivisionError] exactly when the
    video delivers at least one frame and the stride, the frame rate or
    the reported frame count is zero: frame 0 is always kept, so its
    timestamp and its progress message are always computed.  A video
    without frames never raises. *)
Theorem extract_frames_raises {frame : Type} (total_frames : Z)
    (fps : float) (frame_interval : Z) (video : list frame) :
  extract_frames total_frames fps frame_interval video
    = Throw ZeroDivisionError ↔
  video ≠ [] ∧
  (frame_interval = 0%Z ∨ PrimFloat.eqb fps 0 = true ∨ total_frames = 0%Z).
Proof.
  destruct (regular_dec total_frames fps frame_interval) as [Hreg|Hirr].
  - rewrite (extract_frames_regular _ _ _ video Hreg).
    destruct Hreg as (Hk & Hfps & Ht). split; [done|].
    intros [_ [?|[?|?]]]; congruence.
  - destruct video as [|f video].
    + split; [done | by intros [? _]].
    + unfold extract_frames. simpl. rewrite (keep_frame_first _ _ _ Hirr).
      split; [|done]. intros _. split; [done|].
      destruct (decide (frame_interval = 0%Z)); [by left|].
      destruct (PrimFloat.eqb fps 0) eqn:Hfps; [right; by left|].
      destruct (decide (total_frames = 0%Z)); [right; by right|].
      by destruct Hirr.
Qed.

(** X13.  What [extract_frames] returns: the frames whose number is a
    multiple of the stride, in order, each with its number divided by the
    frame rate as timestamp; the two lists have the same length. *)
Theorem extract_frames_returns {frame : Type} (total_frames : Z)
    (fps : float) (frame_interval : Z) (video frame_list : list frame)
    (timestamps : list float) :
  extract_frames total_frames fps frame_interval video
    = Return (frame_list, timestamps) →
  frame_list = (sampled frame_interval video).*2 ∧
  timestamps = (λ p, timestamp_of fps p.1) <$> sampled frame_interval video ∧
  length frame_list = length timestamps.
Proof.
  intros Hrun.
  assert (frame_list = (sampled frame_interval video).*2 ∧
          timestamps = (λ p, timestamp_of fps p.1)
                         <$> sampled frame_interval video) as [-> ->].
  { destruct (regular_dec total_frames fps frame_interval) as [Hreg|Hirr].
    - rewrite (extract_frames_regular _ _ _ video Hreg) in Hrun.
      by injection Hrun as <- <-.
    - destruct video as [|f video]; [by injection Hrun as <- <-|].
      unfold extract_frames in Hrun. simpl in Hrun.
      by rewrite (keep_frame_first _ _ _ Hirr) in Hrun. }
  split_and!; [done | done |]. by rewrite !length_fmap.
Qed.

Lemma enumerate_fst {A} (l : list A) : (enumerate l).*1 = seq 0 (length l).
Proof.
  induction l as [|x l IH] using rev_ind; [done|].
  rewrite enumerate_snoc, fmap_app, IH, length_app. simpl.
  by rewrite Nat.add_1_r, seq_S.
Qed.

Lemma enumerate_snd {A} (l : list A) : (enumerate l).*2 = l.
Proof.
  induction l as [|x l IH] using rev_ind; [done|].
  by rewrite enumerate_snoc, fmap_app, IH.
Qed.

Lemma sampled_every_frame {frame : Type} (video : list frame) :
  sampled 1 video = enumerate video.
Proof.
  unfold sampled. induction (enumerate video) as [|p l IH]; [done|].
  rewrite filter_cons, IH. by rewrite decide_True by apply Z.mod_1_r.
Qed.

(** X14.  With the stride 1 that [main] uses, every frame the video
    delivers is kept, and frame number [i] gets the timestamp [i / fps]. *)
Theorem extract_frames_every_frame {frame : Type} (total_frames : Z)
    (fps : float) (video frame_list : list frame)
    (timestamps : list float) :
  extract_frames total_frames fps 1 video = Return (frame_list, timestamps) →
  frame_list = video ∧
  timestamps = timestamp_of fps <$> seq 0 (length video).
Proof.
  intros Hrun.
  assert (frame_list = (sampled 1 video).*2 ∧
          timestamps = (λ p, timestamp_of fps p.1) <$> sampled 1 video)
    as [-> ->].
  { destruct (regular_dec total_frames fps 1) as [Hreg|Hirr].
    - rewrite (extract_frames_regular _ _ _ video Hreg) in Hrun.
      by injection Hrun as <- <-.
    - destruct video as [|f video]; [by injection Hrun as <- <-|].
      unfold extract_frames in Hrun. simpl in Hrun.
      by rewrite (keep_frame_first _ _ _ Hirr) in Hrun. }
  rewrite sampled_every_frame, enumerate_snd. split; [done|].
  by rewrite <-enumerate_fst, <-list_fmap_compose.
Qed.

Lemma extract_frames_every_frame_witness :
  [true; false; true] = [true; false; true] ∧
  [0; 0.5; 1]%float = timestamp_of 2 <$> seq 0 (length [true; false; true]).
Proof.
  apply (extract_frames_every_frame 3 2 [true; false; true]).
  vm_compute. reflexivity.
Defined.

Lemma extract_frames_returns_witness :
  [true; true] = (sampled 2 [true; false; true]).*2 ∧
  [0; 1]%float
    = (λ p, timestamp_of 2 p.1) <$> sampled 2 [true; false; true] ∧
  length [true; true] = length [0; 1]%float.
Proof.
  apply (extract_frames_returns 3 2 2 [true; false; true]).
  vm_compute. reflexivity.
Defined.

(** ** The frames written for a segment *)

Lemma write_frames_in_range {frame capture : Type}
    (cap_set : capture → nat → capture)
    (cap_read : capture → capture * option frame)
    (video : list frame) (cap : capture) (idxs : list nat) :
  exact_seek cap_set cap_read video →
  Forall (λ i, i < length video) idxs →
  Forall2 (λ i f, video !! i = Some f) idxs
          (write_frames cap_set cap_read cap idxs).2.
Proof.
  intros Hseek Hall. revert cap.
  induction Hall as [|i idxs Hi _ IH]; intros cap; [constructor|].
  destruct (lookup_lt_is_Some_2 video i Hi) as [f Hf].
  specialize (Hseek cap i). simpl.
  destruct (cap_read (cap_set cap i)) as [cap1 ret_frame].
  simpl in Hseek. subst ret_frame. rewrite Hf.
  specialize (IH cap1).
  destruct (write_frames cap_set cap_read cap1 idxs) as [cap2 out].
  by constructor.
Qed.

Lemma Forall2_and_l {A B} (P : A → B → Prop) (Q : A → Prop)
    (l : list A) (k : list B) :
  Forall2 P l k → Forall Q l → Forall2 (λ x y, P x y ∧ Q x) l k.
Proof.
  induction 1 as [|x y l k Hxy _ IH]; intros Hl; [constructor|].
  apply Forall_cons in Hl as [Hx Hl]. constructor; [done | by apply IH].
Qed.

(** X15.  From the frames [extract_frames] keeps with stride 1 to the
    files, provided seeking to a frame number and then reading delivers
    that frame of the video: for every segment, one frame is written per
    frame index, none is skipped, and the frame written for an index is
    the frame that was sampled, embedded and labelled at that position. *)
Theorem segment_file_frames {frame capture : Type}
    (cap_set : capture → nat → capture)
    (cap_read : capture → capture * option frame) (cap : capture)
    (total_frames : Z) (fps : float)
    (video frame_list : list frame) (timestamps : list float)
    (labels : list Z) (segs : list Segment) (s : Segment) :
  exact_seek cap_set cap_read video →
  extract_frames total_frames fps 1 video = Return (frame_list, timestamps) →
  segments labels timestamps = Ok segs →
  s ∈ segs →
  Forall2 (λ idx f, frame_list !! idx = Some f ∧
                    labels !! idx = Some (seg_label s))
          (frame_indices s)
          (write_frames cap_set cap_read cap (frame_indices s)).2.
Proof.
  intros Hseek Hextract Hrun Hs.
  assert (frame_list = video ∧ length timestamps = length video)
    as [-> Hlen].
  { destruct (regular_dec total_frames fps 1) as [Hreg|Hirr].
    - rewrite (extract_frames_regular _ _ _ video Hreg) in Hextract.
      injection Hextract as <- <-.
      rewrite sampled_every_frame, enumerate_snd, length_fmap.
      unfold enumerate. by rewrite length_imap.
    - destruct video as [|f video]; [by injection Hextract as <- <-|].
      unfold extract_frames in Hextract. simpl in Hextract.
      by rewrite (keep_frame_first _ _ _ Hirr) in Hextract. }
  destruct (segments_inv labels timestamps segs Hrun) as (_ & _ & Hsegs & _).
  destruct (Hsegs s Hs) as (Hidx & a & b & Ha & Hb & Hta & Htb).
  assert (StronglySorted lt (frame_indices s)) as Hsorted.
  { rewrite Hidx. apply indices_of_sorted. }
  assert (Forall (λ i, i < length video) (frame_indices s)) as Hrange.
  { apply Forall_forall. intros i Hi.
    pose proof (sorted_le_last _ i b Hsorted Hb Hi).
    apply lookup_lt_Some in Htb. lia. }
  apply Forall2_and_l; [by apply write_frames_in_range|].
  apply Forall_forall. intros idx Hin.
  rewrite Hidx in Hin. by apply elem_of_indices_of.
Qed.

Lemma segment_file_frames_witness :
  Forall2 (λ idx f, [true; false; true] !! idx = Some f ∧
                    interleaved_labels !! idx = Some 0%Z)
          [0; 2]
          (write_frames cursor_set (cursor_read [true; false; true]) 0
             [0; 2]).2.
Proof.
  apply (segment_file_frames cursor_set (cursor_read [true; false; true]) 0
           3 1 [true; false; true] [true; false; true]
           split_timestamps interleaved_labels interleaved_segments
           (MkSegment 0 0 2 [0; 2])).
  - intros cap idx. reflexivity.
  - vm_compute. reflexivity.
  - vm_compute. reflexivity.
  - left.
Defined.

(** ** The embedding dimension *)

Lemma substring_prefix (t s : string) :
  substring 0 (String.length t) s = t ↔ ∃ post, s = t +:+ post.
Proof.
  revert s. induction t as [|c t IH]; intros s; simpl.
  - split; [by exists s|]. by destruct s.
  - destruct s as [|c' s]; simpl.
    + split; [done | by intros [post ?]].
    + split.
      * intros [= -> Ht]. apply IH in Ht as [post ->]. by exists post.
      * intros [post [= -> ->]]. f_equal. apply IH. by exists post.
Qed.

Lemma contains_occurs (needle s : string) :
  needle ≠ EmptyString → contains needle s = true ↔ occurs needle s.
Proof.
  intros Hne. unfold contains. rewrite bool_decide_eq_true.
  induction s as [|b s IH].
  - destruct needle as [|a needle]; [done|]. simpl. split.
    + by intros [? ?].
    + intros (pre & post & Hs). by destruct pre.
  - assert (String.index 0 needle (String b s)
            = if String.prefix needle (String b s) then Some 0
              else match String.index 0 needle s with
                   | Some n => Some (S n)
                   | None => None
                   end) as -> by done.
    destruct (String.prefix needle (String b s)) eqn:Hp.
    + split; [|eauto]. intros _.
      apply String.prefix_correct, substring_prefix in Hp as [post Hpost].
      exists EmptyString, post. by rewrite Hpost.
    + assert (is_Some (match String.index 0 needle s with
                       | Some n => Some (S n)
                       | None => None
                       end) ↔ is_Some (String.index 0 needle s)) as ->.
      { destruct (String.index 0 needle s); split; intros [? ?]; eauto; done. }
      rewrite IH. split.
      * intros (pre & post & ->). by exists (String b pre), post.
      * intros (pre & post & Hs). destruct pre as [|c pre].
        -- simpl in Hs. assert (String.prefix needle (String b s) = true) as Hp'.
           { apply String.prefix_correct, substring_prefix. by exists post. }
           congruence.
        -- injection Hs as -> ->. by exists pre, post.
Qed.

(** X16.  The embedding dimension chosen from the model path: 2048 as soon
    as the path contains "Janus-Pro-1B" (even when it also contains
    "Janus-Pro-7B"), 4096 when it contains "Janus-Pro-7B" only, and
    [ValueError] when it contains neither. *)
Theorem embedding_dim_cases (model_path : string) :
  (occurs "Janus-Pro-1B" model_path →
   embedding_dim model_path = Ok 2048) ∧
  (¬ occurs "Janus-Pro-1B" model_path → occurs "Janus-Pro-7B" model_path →
   embedding_dim model_path = Ok 4096) ∧
  (¬ occurs "Janus-Pro-1B" model_path → ¬ occurs "Janus-Pro-7B" model_path →
   embedding_dim model_path = Raise ValueError).
Proof.
  unfold embedding_dim.
  pose proof (contains_occurs "Janus-Pro-1B" model_path ltac:(done)) as H1.
  pose proof (contains_occurs "Janus-Pro-7B" model_path ltac:(done)) as H7.
  destruct (contains "Janus-Pro-1B" model_path).
  - split_and!; [done | |]; intros Hno; destruct Hno; by apply H1.
  - destruct (contains "Janus-Pro-7B" model_path).
    + split_and!; [intros H; by apply H1 in H | done |].
      intros _ Hno. destruct Hno. by apply H7.
    + split_and!; [intros H; by apply H1 in H | | done].
      intros _ H. by apply H7 in H.
Qed.

(** ** The whole of [main] *)

Lemma ingest_Ok_closed (rounds : list round) :
  Forall answered (active rounds) →
  (∀ id hits h, last_answer id (queries rounds) = Some hits →
                h ∈ hits → hit_id h ∈ population rounds) →
  ∃ st, ingest rounds = Ok st ∧ ids st = population rounds ∧
        closed (ids st) (dist st).
Proof.
  intros Hans Hhits. unfold ingest.
  destruct (ingest_loop_Ok rounds
              {| ids := []; dist := Dict.empty; embeddings := [] |} Hans)
    as (st & Hrun & Hids & Hdist).
  simpl in Hids, Hdist. exists st. split_and!; [done | done |].
  intros a l b d Hl Hbd. rewrite Hids.
  rewrite Hdist, stored_lookup in Hl.
  destruct (last_answer a (queries rounds)) as [hits|] eqn:Hlast; [|done].
  injection Hl as <-. split.
  - rewrite <-(queries_fst rounds Hans).
    apply list_elem_of_fmap. exists (a, hits).
    split; [done | by apply last_answer_Some_elem_of].
  - apply list_elem_of_fmap in Hbd as (h & [= -> _] & Hh).
    by apply (Hhits a hits h).
Qed.

(** With a writer that returns, the loop of lines 250-271 collects the
    records [segments] describes. *)
Lemma write_segments_emit (write_video : Segment → result unit)
    (timestamps : list float) (items : list (Z * list nat)) :
  (∀ s, write_video s = Ok tt) →
  write_segments write_video timestamps items = emit_segments timestamps items.
Proof.
  intros Hwrite. induction items as [|[label idxs] items IH]; [done|].
  simpl. case_decide; [done|].
  destruct (make_segment timestamps label idxs) as [s|e]; simpl; [|done].
  by rewrite Hwrite, IH.
Qed.

(** X17.  [main] runs from line 232 to the end of the segment loop when
    the search answered every query, every stored hit names an item of the
    population, every item has a timestamp, and the library calls return:
    the clustering primitive with one label per row of a square matrix,
    [np.array], [visualize], the opening of the video and the writing of
    each segment file.  It then holds an N×N matrix and N labels for the N
    items ingested, the count it printed is [len(set(labels)) - 1], and
    the segments written are those of the labels. *)
Theorem main_returns {ndarray : Type}
    (fit_predict : nat → nat → matrix → result (list Z))
    (np_array : list (list float) → result ndarray)
    (visualize : list Z → ndarray → result unit)
    (video_capture : result unit)
    (write_video : Segment → result unit)
    (rounds : list round) (timestamps : list float) :
  Forall answered (active rounds) →
  (∀ id hits h, last_answer id (queries rounds) = Some hits →
                h ∈ hits → hit_id h ∈ population rounds) →
  length (population rounds) ≤ length timestamps →
  (∀ n m, square n m → one_label_per_row fit_predict m) →
  (∀ embeddings, ∃ arr, np_array embeddings = Ok arr) →
  (∀ labels arr, visualize labels arr = Ok tt) →
  video_capture = Ok tt →
  (∀ s, write_video s = Ok tt) →
  ∃ c segs,
    main fit_predict np_array visualize video_capture write_video
         rounds timestamps = Ok (c, segs) ∧
    square (length (population rounds)) (dist_matrix c) ∧
    length (labels_of c) = length (population rounds) ∧
    reported c = cluster_count (labels_of c) ∧
    segments (labels_of c) timestamps = Ok segs.
Proof.
  intros Hans Hhits Hlen Hfit Harr Hplot Hvideo Hwrite.
  destruct (ingest_Ok_closed rounds Hans Hhits) as (st & Hst & Hids & Hcl).
  destruct (build_matrix_Ok (ids st) (dist st) Hcl) as [m Hm].
  pose proof (build_matrix_square _ _ _ Hm) as Hsq. rewrite Hids in Hsq.
  destruct (Hfit _ m Hsq) as (labels & Hlabels & Hrows).
  pose proof Hsq as [Hrows' _]. rewrite Hrows' in Hrows.
  destruct (Harr (embeddings st)) as [arr Harr'].
  destruct (segments_Ok labels timestamps) as [segs Hsegs]; [lia|].
  exists (Clustered m labels (cluster_count labels) arr), segs.
  split_and!; try done.
  unfold main, cluster. rewrite Hst. simpl. rewrite Hm. simpl.
  rewrite Hlabels. simpl. rewrite Harr'. simpl. rewrite Hplot. simpl.
  rewrite Hvideo. simpl. rewrite (write_segments_emit _ _ _ Hwrite).
  fold (segments labels timestamps). by rewrite Hsegs.
Qed.

Lemma pair_rounds_hits (id : Z) (hits : list hit) (h : hit) :
  last_answer id (queries pair_rounds) = Some hits →
  h ∈ hits → hit_id h ∈ population pair_rounds.
Proof.
  unfold last_answer.
  change (queries pair_rounds)
    with [(1%Z, [Hit 2 0.5]); (2%Z, [Hit 1 0.5])].
  rewrite !filter_cons, filter_nil. simpl.
  repeat case_decide; simpl; intros Hlast Hh; try discriminate;
    injection Hlast as <-; apply list_elem_of_singleton in Hh as ->;
    apply (bool_decide_unpack _); vm_compute; exact I.
Qed.

Lemma main_returns_witness :
  ∃ c segs,
    main one_cluster array_of_lists silent_plot (Ok tt) silent_writer
         pair_rounds [0; 1]%float = Ok (c, segs) ∧
    square (length (population pair_rounds)) (dist_matrix c) ∧
    length (labels_of c) = length (population pair_rounds) ∧
    reported c = cluster_count (labels_of c) ∧
    segments (labels_of c) [0; 1]%float = Ok segs.
Proof.
  apply (main_returns one_cluster array_of_lists silent_plot (Ok tt)
           silent_writer pair_rounds [0; 1]%float).
  - repeat constructor.
  - apply pair_rounds_hits.
  - vm_compute. lia.
  - intros n m _. exists (replicate (length m) 0%Z).
    split; [reflexivity | apply length_replicate].
  - intros embeddings. by exists embeddings.
  - reflexivity.
  - reflexivity.
  - reflexivity.
Defined.

(** ** The arrays [cluster] builds side by side *)

Lemma entities_cons (r : round) (rounds : list round) :
  entities (r :: rounds) =
  if decide (length (batch r) = 0) then [] else batch r ++ entities rounds.
Proof. unfold entities. simpl. by case_decide. Qed.

Lemma ingest_loop_arrays (rounds : list round) (st st' : ingested) :
  ingest_loop rounds st = Ok st' →
  ids st' = ids st ++ (entity_id <$> entities rounds) ∧
  embeddings st' = embeddings st ++ (entity_embedding <$> entities rounds).
Proof.
  revert st. induction rounds as [|r rounds IH]; intros st Hrun.
  - injection Hrun as <-. by rewrite !app_nil_r.
  - rewrite entities_cons. simpl in Hrun.
    destruct (decide (length (batch r) = 0)) as [Hz|Hz].
    + injection Hrun as <-. by rewrite !app_nil_r.
    + inv_bind Hrun. destruct (IH _ Hrun) as [Hids Hembs].
      simpl in Hids, Hembs. by rewrite Hids, Hembs, !fmap_app, !app_assoc.
Qed.

(** X18.  The ids and the embeddings [cluster] accumulates are parallel
    arrays: position [i] of both belongs to the [i]-th entity handed out,
    so the embeddings returned line up with the rows of the matrix and
    with the labels. *)
Theorem ingest_parallel_arrays (rounds : list round) (st : ingested) :
  ingest rounds = Ok st →
  ids st = entity_id <$> entities rounds ∧
  embeddings st = entity_embedding <$> entities rounds ∧
  length (ids st) = length (embeddings st).
Proof.
  intros Hrun. apply ingest_loop_arrays in Hrun as [Hids Hembs].
  simpl in Hids, Hembs. rewrite Hids, Hembs.
  split_and!; [done | done |]. by rewrite !length_fmap.
Qed.

Lemma ingest_parallel_arrays_witness :
  [1; 2]%Z = entity_id <$> entities pair_rounds ∧
  [[]; []] = entity_embedding <$> entities pair_rounds ∧
  length [1; 2]%Z = length [[]; [] : list float].
Proof.
  apply (ingest_parallel_arrays pair_rounds
           {| ids := [1; 2]%Z;
              dist := [(1%Z, [(2%Z, 0.5%float)]);
                       (2%Z, [(1%Z, 0.5%float)])];
              embeddings := [[]; []] |}).
  vm_compute. reflexivity.
Defined.

(** ** From the search results to the matrix *)

Lemma last_dist_tuples (b : Z) (hits : list hit) :
  last_dist b (tuples hits) =
  hit_distance <$> last (filter (λ h, hit_id h = b) hits).
Proof.
  induction hits as [|h hits IH] using rev_ind; [done|].
  assert (tuples (hits ++ [h])
          = tuples hits ++ [(hit_id h, hit_distance h)]) as ->
    by (unfold tuples; by rewrite fmap_app).
  rewrite last_dist_snoc, filter_app, IH.
  simpl. rewrite filter_cons, filter_nil.
  destruct (decide (hit_id h = b)) as [Hb|Hb].
  - by rewrite last_snoc.
  - by rewrite app_nil_r.
Qed.

(** X19.  With distinct ids, the matrix [cluster] hands to HDBSCAN holds
    at row [i], column [j] the distance of the last hit for item [j] among
    the hits the search returned for item [i], and the sentinel when item
    [j] is not among these hits. *)
Theorem cluster_matrix_entries (rounds : list round) (st : ingested)
    (m : matrix) (i j : nat) (a b : Z) :
  Forall answered (active rounds) →
  NoDup (population rounds) →
  ingest rounds = Ok st →
  build_matrix (ids st) (dist st) = Ok m →
  population rounds !! i = Some a → population rounds !! j = Some b →
  ∃ hits, last_answer a (queries rounds) = Some hits ∧
    mget m i j =
    Some (default infinity
            (hit_distance <$> last (filter (λ h, hit_id h = b) hits))).
Proof.
  intros Hans Hnd Hrun Hm Hi Hj. unfold ingest in Hrun.
  destruct (ingest_loop_Ok rounds
              {| ids := []; dist := Dict.empty; embeddings := [] |} Hans)
    as (st' & Hrun' & Hids & Hdist).
  rewrite Hrun in Hrun'. injection Hrun' as <-. simpl in Hids, Hdist.
  assert (Dict.wf (dist st)) as Hwf.
  { rewrite Hdist. apply stored_wf. constructor. }
  assert (is_Some (last_answer a (queries rounds))) as [hits Hhits].
  { assert (a ∈ (queries rounds).*1) as Hin.
    { rewrite (queries_fst rounds Hans). by eapply list_elem_of_lookup_2. }
    apply list_elem_of_fmap in Hin as ([a' hits'] & Ha & Hin).
    simpl in Ha. subst a'. unfold last_answer.
    destruct (last (filter (λ q : Z * list hit, q.1 = a)
                      (queries rounds))) as [q|] eqn:Hlast; [by eexists|].
    apply last_None in Hlast.
    assert ((a, hits') ∈ filter (λ q : Z * list hit, q.1 = a)
                            (queries rounds)) as Hf
      by (by apply list_elem_of_filter).
    rewrite Hlast in Hf. by apply elem_of_nil in Hf. }
  exists hits. split; [done|].
  rewrite (build_matrix_lookup (ids st) (dist st) m a b i j Hwf Hm);
    [|rewrite Hids; by apply ids2index_complete..].
  unfold expected_entry. rewrite Hdist, stored_lookup, Hhits.
  by rewrite last_dist_tuples.
Qed.

Lemma cluster_matrix_entries_witness :
  ∃ hits, last_answer 1 (queries pair_rounds) = Some hits ∧
    mget [[infinity; 0.5%float]; [0.5%float; infinity]] 0 1 =
    Some (default infinity
            (hit_distance <$> last (filter (λ h, hit_id h = 2%Z) hits))).
Proof.
  apply (cluster_matrix_entries pair_rounds
           {| ids := [1; 2]%Z;
              dist := [(1%Z, [(2%Z, 0.5%float)]);
                       (2%Z, [(1%Z, 0.5%float)])];
              embeddings := [[]; []] |}).
  - repeat constructor.
  - apply (bool_decide_unpack _). vm_compute. exact I.
  - vm_compute. reflexivity.
  - vm_compute. reflexivity.
  - reflexivity.
  - reflexivity.
Defined.

(** ** How many frames are kept *)

Lemma ceil_div_succ (n k : Z) :
  (0 ≤ n)%Z → (0 < k)%Z →
  ((n + 1 + k - 1) / k)%Z =
  ((n + k - 1) / k + (if decide ((n `mod` k)%Z = 0%Z) then 1 else 0))%Z.
Proof.
  intros Hn Hk.
  pose proof (Z.div_mod n k ltac:(lia)) as Hdiv.
  pose proof (Z.mod_pos_bound n k Hk) as Hmod.
  set (q := (n / k)%Z) in *. set (r := (n `mod` k)%Z) in *.
  destruct (decide (r = 0%Z)) as [Hr|Hr].
  - rewrite <-(Z.div_unique (n + 1 + k - 1) k (q + 1) 0) by lia.
    rewrite <-(Z.div_unique (n + k - 1) k q (k - 1)) by lia. lia.
  - rewrite <-(Z.div_unique (n + 1 + k - 1) k (q + 1) r) by lia.
    rewrite <-(Z.div_unique (n + k - 1) k (q + 1) (r - 1)) by lia. lia.
Qed.

Lemma sampled_snoc {frame : Type} (frame_interval : Z)
    (video : list frame) (x : frame) :
  sampled frame_interval (video ++ [x]) =
  sampled frame_interval video
  ++ (if decide ((Z.of_nat (length video) `mod` frame_interval)%Z = 0%Z)
      then [(length video, x)] else []).
Proof.
  unfold sampled. by rewrite enumerate_snoc, filter_app.
Qed.

Lemma sampled_length {frame : Type} (frame_interval : Z)
    (video : list frame) :
  (0 < frame_interval)%Z →
  Z.of_nat (length (sampled frame_interval video)) =
  ((Z.of_nat (length video) + frame_interval - 1) / frame_interval)%Z.
Proof.
  intros Hk. induction video as [|x video IH] using rev_ind.
  - simpl. rewrite Z.div_small; lia.
  - rewrite sampled_snoc, !length_app, !Nat2Z.inj_add, IH.
    change (Z.of_nat (length [x])) with 1%Z.
    rewrite (ceil_div_succ (Z.of_nat (length video)) frame_interval)
      by lia.
    by case_decide.
Qed.

(** X20.  With a positive stride [k], a video of [n] frames yields
    [ceil(n / k)] frames (and as many timestamps). *)
Theorem extract_frames_count {frame : Type} (total_frames : Z)
    (fps : float) (frame_interval : Z) (video frame_list : list frame)
    (timestamps : list float) :
  (0 < frame_interval)%Z →
  extract_frames total_frames fps frame_interval video
    = Return (frame_list, timestamps) →
  Z.of_nat (length frame_list) =
  ((Z.of_nat (length video) + frame_interval - 1) / frame_interval)%Z.
Proof.
  intros Hk Hrun.
  assert (frame_list = (sampled frame_interval video).*2) as ->.
  { destruct (regular_dec total_frames fps frame_interval) as [Hreg|Hirr].
    - rewrite (extract_frames_regular _ _ _ video Hreg) in Hrun.
      by injection Hrun as <- _.
    - destruct video as [|f video]; [by injection Hrun as <- _|].
      unfold extract_frames in Hrun. simpl in Hrun.
      by rewrite (keep_frame_first _ _ _ Hirr) in Hrun. }
  rewrite length_fmap. by apply sampled_length.
Qed.

Lemma extract_frames_count_witness :
  Z.of_nat (length [true; true]) =
  ((Z.of_nat (length [true; false; true]) + 2 - 1) / 2)%Z.
Proof.
  apply (extract_frames_count 3 2 2 [true; false; true] [true; true]
           [0; 1]%float).
  - lia.
  - vm_compute. reflexivity.
Defined.
